(** * idbkv: a promise-based key-value wrapper over IndexedDB

    The repository ships the class [IDBKV] twice: a lazy variant (the
    connection is opened by the private method [resolve] on first use; it
    also has [update] and [has]) and an eager variant in [src/index.ts] (the
    constructor calls [open] and keeps the promise).  Both are embedded
    here, over one model of the host storage subsystem.

    Asynchronous methods are embedded as tasks of a small machine: a task
    runs synchronously up to its next [await], and is resumed either by a
    host event (an open request or a storage request completes) or by the
    microtask queue.  The schedule, a list of actions, is the interleaving
    chosen by the caller and the host. *)

From Stdlib Require Import ZArith String Ascii List Lia.
From stdpp Require Import base option list gmap strings sorting.

Local Open Scope Z_scope.
Local Open Scope string_scope.

(** ** Values and keys *)

(** The payloads [V] of the store, including the host's [undefined]. *)
Inductive jsval :=
| Undefined
| Null
| Bool (b : bool)
| Num (n : Z)
| Str (s : string).

(** A string of the host is a sequence of UTF-16 code units. *)
Abbreviation code_units := (list N).

(** The code units of a code point: itself, or a surrogate pair. *)
Definition encode_utf16 (cp : N) : code_units :=
  if (cp <? 0x10000)%N then [cp]
  else [(0xD800 + N.shiftr (cp - 0x10000) 10)%N;
        (0xDC00 + N.land (cp - 0x10000) 0x3FF)%N].

(** A continuation byte of UTF-8, and its six payload bits. *)
Definition continues (b : N) : bool := (0x80 <=? b)%N && (b <? 0xC0)%N.
Definition payload (b : N) : N := N.land b 0x3F.

(** The code units of a text given by its UTF-8 bytes.  A byte that does
    not start a complete sequence stands for U+FFFD. *)
Fixpoint utf16_of_utf8 (bs : list N) : code_units :=
  match bs with
  | [] => []
  | b0 :: bs1 =>
      if (b0 <? 0x80)%N then b0 :: utf16_of_utf8 bs1
      else if (b0 <? 0xC0)%N then 0xFFFD%N :: utf16_of_utf8 bs1
      else if (b0 <? 0xE0)%N then
        match bs1 with
        | b1 :: bs2 =>
            if continues b1 then
              encode_utf16
                (N.lor (N.shiftl (N.land b0 0x1F) 6) (payload b1))
              ++ utf16_of_utf8 bs2
            else 0xFFFD%N :: utf16_of_utf8 bs1
        | _ => 0xFFFD%N :: utf16_of_utf8 bs1
        end
      else if (b0 <? 0xF0)%N then
        match bs1 with
        | b1 :: b2 :: bs3 =>
            if continues b1 && continues b2 then
              encode_utf16
                (N.lor (N.shiftl (N.land b0 0x0F) 12)
                   (N.lor (N.shiftl (payload b1) 6) (payload b2)))
              ++ utf16_of_utf8 bs3
            else 0xFFFD%N :: utf16_of_utf8 bs1
        | _ => 0xFFFD%N :: utf16_of_utf8 bs1
        end
      else if (b0 <? 0xF8)%N then
        match bs1 with
        | b1 :: b2 :: b3 :: bs4 =>
            if continues b1 && continues b2 && continues b3 then
              encode_utf16
                (N.lor (N.shiftl (N.land b0 0x07) 18)
                   (N.lor (N.shiftl (payload b1) 12)
                      (N.lor (N.shiftl (payload b2) 6) (payload b3))))
              ++ utf16_of_utf8 bs4
            else 0xFFFD%N :: utf16_of_utf8 bs1
        | _ => 0xFFFD%N :: utf16_of_utf8 bs1
        end
      else 0xFFFD%N :: utf16_of_utf8 bs1
  end.

(** The code units of a string literal of this development, whose bytes
    are UTF-8. *)
Definition utf16 (s : string) : code_units :=
  utf16_of_utf8 (map N_of_ascii (list_ascii_of_string s)).

(** [IDBValidKey], restricted to numbers and strings.  Numbers are taken
    as integers; a string key is its sequence of code units, which is what
    the host compares. *)
Inductive IDBValidKey :=
| KNum (n : Z)
| KUnits (units : code_units).

(** The string key written as a literal. *)
Definition KStr (s : string) : IDBValidKey := KUnits (utf16 s).

(** What a rejected promise carries: an exception of the host, or the value
    thrown by a callback of the caller. *)
Inductive error :=
| DOMException (name : string)
| Thrown (v : jsval).

#[global] Instance jsval_eq_dec : EqDecision jsval.
Proof. solve_decision. Defined.
#[global] Instance IDBValidKey_eq_dec : EqDecision IDBValidKey.
Proof. solve_decision. Defined.
#[global] Instance error_eq_dec : EqDecision error.
Proof. solve_decision. Defined.

(** The order of two strings in the host: code unit by code unit, a proper
    prefix first. *)
Fixpoint units_compare (s t : code_units) : comparison :=
  match s, t with
  | [], [] => Eq
  | [], _ :: _ => Lt
  | _ :: _, [] => Gt
  | x :: s', y :: t' =>
      match N.compare x y with
      | Eq => units_compare s' t'
      | c => c
      end
  end.

(** The key order of the host: every number sorts before every string,
    numbers by value, strings by code unit. *)
Definition key_compare (a b : IDBValidKey) : comparison :=
  match a, b with
  | KNum x, KNum y => Z.compare x y
  | KNum _, KUnits _ => Lt
  | KUnits _, KNum _ => Gt
  | KUnits s, KUnits t => units_compare s t
  end.

Definition key_lt (a b : IDBValidKey) : Prop := key_compare a b = Lt.

(** ** The object store of the host

    Records are kept in ascending key order, as the host iterates them. *)
Abbreviation table := (list (IDBValidKey * jsval)).

(** [IDBObjectStore.get]: the stored value, or nothing. *)
Fixpoint lookup_record (k : IDBValidKey) (t : table) : option jsval :=
  match t with
  | [] => None
  | (k', v') :: t' =>
      match key_compare k k' with
      | Eq => Some v'
      | _ => lookup_record k t'
      end
  end.

(** [IDBObjectStore.put]: insert or overwrite. *)
Fixpoint put_record (v : jsval) (k : IDBValidKey) (t : table) : table :=
  match t with
  | [] => [(k, v)]
  | (k', v') :: t' =>
      match key_compare k k' with
      | Lt => (k, v) :: (k', v') :: t'
      | Eq => (k, v) :: t'
      | Gt => (k', v') :: put_record v k t'
      end
  end.

(** [IDBObjectStore.delete]. *)
Fixpoint delete_record (k : IDBValidKey) (t : table) : table :=
  match t with
  | [] => []
  | (k', v') :: t' =>
      match key_compare k k' with
      | Eq => delete_record k t'
      | _ => (k', v') :: delete_record k t'
      end
  end.

(** [IDBObjectStore.getKey]: the key of the record, or nothing. *)
Fixpoint lookup_key (k : IDBValidKey) (t : table) : option IDBValidKey :=
  match t with
  | [] => None
  | (k', _) :: t' =>
      match key_compare k k' with
      | Eq => Some k'
      | _ => lookup_key k t'
      end
  end.

Definition all_keys (t : table) : list IDBValidKey := map fst t.
Definition all_values (t : table) : list jsval := map snd t.

(** How often [k] is the key of a record of [t]. *)
Definition count_key (k : IDBValidKey) (t : table) : nat :=
  length (filter (fun p => p.1 = k) t).

(** Strictly ascending keys: the invariant of a table. *)
Definition sorted_table (t : table) : Prop :=
  StronglySorted key_lt (all_keys t).

(** ** The host storage subsystem *)

Inductive IDBTransactionMode := readonly | readwrite.

(** An open connection: a session of the database of that name. *)
Record IDBDatabase := { conn_name : string }.

(** An object store reached through a transaction of a connection. *)
Record IDBObjectStore := {
  os_conn : IDBDatabase;
  os_name : string;
  os_mode : IDBTransactionMode
}.

(** The requests the wrapper places on an object store. *)
Inductive request :=
| ReqGet (key : IDBValidKey)
| ReqPut (val : jsval) (key : IDBValidKey)
| ReqDelete (key : IDBValidKey)
| ReqClear
| ReqGetAllKeys
| ReqGetAll
| ReqGetKey (key : IDBValidKey).

(** [request.result] of a request that succeeded. *)
Inductive reqresult :=
| ResUndefined
| ResValue (v : jsval)
| ResKey (k : IDBValidKey)
| ResKeys (ks : list IDBValidKey)
| ResValues (vs : list jsval).

Definition mutating (r : request) : bool :=
  match r with
  | ReqPut _ _ | ReqDelete _ | ReqClear => true
  | _ => false
  end.

(** What the host does with a request on a table. *)
Definition exec_request (r : request) (t : table) : table * reqresult :=
  match r with
  | ReqGet key => (t, ResValue (default Undefined (lookup_record key t)))
  | ReqPut val key => (put_record val key t, ResKey key)
  | ReqDelete key => (delete_record key t, ResUndefined)
  | ReqClear => ([], ResUndefined)
  | ReqGetAllKeys => (t, ResKeys (all_keys t))
  | ReqGetAll => (t, ResValues (all_values t))
  | ReqGetKey key =>
      (t, match lookup_key key t with Some k => ResKey k | None => ResUndefined end)
  end.

(** The databases of the origin: name to object stores, store name to
    table.  Every database is at version 1, the only version the wrapper
    asks for. *)
Abbreviation databases := (gmap string (gmap string table)).

Definition find_table (w : databases) (name store : string) : option table :=
  w !! name ≫= (.!! store).

Definition write_table (w : databases) (name store : string) (t : table)
  : databases :=
  match w !! name with
  | Some d => <[name := <[store := t]> d]> w
  | None => w
  end.

(** A successful [indexedDB.open(name, 1)]: a database that does not exist
    yet is created, and the [onupgradeneeded] handler makes its one object
    store; an existing database is left as it is. *)
Definition upgrade (w : databases) (name store : string) : databases :=
  match w !! name with
  | Some _ => w
  | None => <[name := {[store := []]}]> w
  end.

(** The I/O the host sees. *)
Inductive event :=
| EvOpen (name : string) (version : Z)
| EvTransaction (name store : string) (mode : IDBTransactionMode)
| EvRequest (name store : string) (r : request).

Inductive open_status :=
| Pending
| Succeeded (c : IDBDatabase)
| Failed (e : error).

(** An [IDBOpenDBRequest] with the handlers the wrapper installs on it:
    [or_store] is the store its [onupgradeneeded] handler creates. *)
Record open_request := {
  or_name : string;
  or_version : Z;
  or_store : string;
  or_status : open_status
}.

Definition is_open_event (e : event) : bool :=
  match e with EvOpen _ _ => true | _ => false end.

Definition is_put_event (e : event) : bool :=
  match e with EvRequest _ _ (ReqPut _ _) => true | _ => false end.

(** The writes the host was asked for. *)
Definition puts (tr : list event) : list event := List.filter is_put_event tr.

(** All tables of the host are in key order. *)
Definition sorted_world (w : databases) : Prop :=
  ∀ name d st t, w !! name = Some d → d !! st = Some t → sorted_table t.

(** ** Asynchronous code

    The body of an async method, as the sequence of its effects.  [H] is
    the type of the object [this]. *)
Inductive outcome (A : Type) :=
| Fulfilled (a : A)
| Rejected (e : error).
Arguments Fulfilled {A} a.
Arguments Rejected {A} e.

Inductive prog (H A : Type) : Type :=
| Ret (a : A)
| Throw (e : error)
| This (k : H -> prog H A)
| SetThis (h : H) (p : prog H A)
| Open (name : string) (version : Z) (store : string) (k : nat -> prog H A)
| Await (promise : nat) (k : IDBDatabase -> prog H A)
| Yield (p : prog H A)
| Transaction (c : IDBDatabase) (store : string) (mode : IDBTransactionMode)
    (k : IDBObjectStore -> prog H A)
| Request (os : IDBObjectStore) (r : request) (k : reqresult -> prog H A).
Arguments Ret {H A} a.
Arguments Throw {H A} e.
Arguments This {H A} k.
Arguments SetThis {H A} h p.
Arguments Open {H A} name version store k.
Arguments Await {H A} promise k.
Arguments Yield {H A} p.
Arguments Transaction {H A} c store mode k.
Arguments Request {H A} os r k.

Fixpoint bind {H A B} (p : prog H A) (f : A -> prog H B) : prog H B :=
  match p with
  | Ret a => f a
  | Throw e => Throw e
  | This k => This (fun h => bind (k h) f)
  | SetThis h p => SetThis h (bind p f)
  | Open name version store k => Open name version store (fun r => bind (k r) f)
  | Await promise k => Await promise (fun c => bind (k c) f)
  | Yield p => Yield (bind p f)
  | Transaction c store mode k => Transaction c store mode (fun os => bind (k os) f)
  | Request os r k => Request os r (fun res => bind (k res) f)
  end.

(** [await p] and [p.then(f)]: the continuation runs in a later microtask. *)
Definition await {H A} (p : prog H A) : prog H A :=
  bind p (fun a => Yield (Ret a)).

#[global] Instance prog_ret {H} : MRet (prog H) := fun A a => Ret a.
#[global] Instance prog_bind {H} : MBind (prog H) := fun A B f p => bind p f.
#[global] Instance prog_fmap {H} : FMap (prog H) :=
  fun A B f p => bind p (fun a => Ret (f a)).

(** A call in flight: runnable, suspended on the host, or settled. *)
Inductive tstate (H A : Type) : Type :=
| Ready (p : prog H A)
| OnOpen (promise : nat) (k : IDBDatabase -> prog H A)
| OnRequest (os : IDBObjectStore) (r : request) (k : reqresult -> prog H A)
| Settled (o : outcome A).
Arguments Ready {H A} p.
Arguments OnOpen {H A} promise k.
Arguments OnRequest {H A} os r k.
Arguments Settled {H A} o.

(** What the public methods resolve to. *)
Inductive retval :=
| RetValue (v : jsval)
| RetVoid
| RetKeys (ks : list IDBValidKey)
| RetValues (vs : list jsval)
| RetBool (b : bool).

(** The casts of [request.result]. *)
Definition as_value (r : reqresult) : jsval :=
  match r with ResValue v => v | _ => Undefined end.
Definition as_keys (r : reqresult) : list IDBValidKey :=
  match r with ResKeys ks => ks | _ => [] end.
Definition as_values (r : reqresult) : list jsval :=
  match r with ResValues vs => vs | _ => [] end.
(** [request.result !== undefined] *)
Definition is_defined (r : reqresult) : bool :=
  match r with
  | ResUndefined | ResValue Undefined => false
  | _ => true
  end.

(** A body that neither calls [indexedDB.open] nor assigns a field of
    [this], whatever it is resumed with. *)
Fixpoint quiet {H A} (p : prog H A) : Prop :=
  match p with
  | Ret _ | Throw _ => True
  | This k => ∀ h, quiet (k h)
  | SetThis _ _ => False
  | Open _ _ _ _ => False
  | Await _ k => ∀ c, quiet (k c)
  | Yield p => quiet p
  | Transaction _ _ _ k => ∀ os, quiet (k os)
  | Request _ _ k => ∀ res, quiet (k res)
  end.

Definition quiet_state {H A} (st : tstate H A) : Prop :=
  match st with
  | Ready p => quiet p
  | OnOpen _ k => ∀ c, quiet (k c)
  | OnRequest _ _ k => ∀ res, quiet (k res)
  | Settled _ => True
  end.

(** ** The machine *)

Section Machine.
Context {H method : Type}.
(** The body of each public method. *)
Variable invoke : method -> prog H retval.

(** What the calls in flight share: the databases of the host, the
    object [this], the open requests issued so far and the I/O log. *)
Record Env := {
  world : databases;
  this : H;
  opens : list open_request;
  trace : list event
}.

Record Sys := {
  env : Env;
  tasks : list (tstate H retval)
}.

Definition set_this (h : H) (e : Env) : Env :=
  {| world := world e; this := h; opens := opens e; trace := trace e |}.

Definition set_world (w : databases) (e : Env) : Env :=
  {| world := w; this := this e; opens := opens e; trace := trace e |}.

Definition set_opens (o : list open_request) (e : Env) : Env :=
  {| world := world e; this := this e; opens := o; trace := trace e |}.

Definition log (ev : event) (e : Env) : Env :=
  {| world := world e; this := this e; opens := opens e;
     trace := trace e ++ [ev] |}.

(** [indexedDB.open(name, version)] with the three handlers installed. *)
Definition issue_open (name : string) (version : Z) (store : string) (e : Env)
  : Env :=
  set_opens (opens e ++ [{| or_name := name; or_version := version;
                            or_store := store; or_status := Pending |}])
    (log (EvOpen name version) e).

(** Run a body up to its next suspension. *)
Fixpoint run_sync {A} (p : prog H A) (e : Env) : Env * tstate H A :=
  match p with
  | Ret a => (e, Settled (Fulfilled a))
  | Throw err => (e, Settled (Rejected err))
  | This k => run_sync (k (this e)) e
  | SetThis h p => run_sync p (set_this h e)
  | Open name version store k =>
      run_sync (k (length (opens e))) (issue_open name version store e)
  | Await promise k =>
      match or_status <$> opens e !! promise with
      | Some (Succeeded c) => (e, Ready (k c))
      | Some (Failed err) => (e, Settled (Rejected err))
      | _ => (e, OnOpen promise k)
      end
  | Yield p => (e, Ready p)
  | Transaction c store mode k =>
      match find_table (world e) (conn_name c) store with
      | Some _ =>
          run_sync (k {| os_conn := c; os_name := store; os_mode := mode |})
            (log (EvTransaction (conn_name c) store mode) e)
      | None => (e, Settled (Rejected (DOMException "NotFoundError")))
      end
  | Request os r k =>
      match os_mode os, mutating r with
      | readonly, true =>
          (e, Settled (Rejected (DOMException "ReadOnlyError")))
      | _, _ =>
          (log (EvRequest (conn_name (os_conn os)) (os_name os) r) e,
           OnRequest os r k)
      end
  end.

(** The callers of the methods and the host take turns. *)
Inductive action :=
| Call (m : method)
| OpenDone (promise : nat) (failure : option error)
| Tick (t : nat)
| ReqDone (t : nat) (failure : option error).

(** The completion of an open request reaches whoever awaits it. *)
Definition resume_open {A} (promise : nat) (res : IDBDatabase + error)
    (st : tstate H A) : tstate H A :=
  match st with
  | OnOpen r k =>
      if decide (r = promise) then
        match res with
        | inl c => Ready (k c)
        | inr err => Settled (Rejected err)
        end
      else st
  | _ => st
  end.

Definition settle_open (req : open_request) (st : open_status) : open_request :=
  {| or_name := or_name req; or_version := or_version req;
     or_store := or_store req; or_status := st |}.

Definition complete_open (promise : nat) (req : open_request)
    (failure : option error) (s : Sys) : Sys :=
  match failure with
  | Some err =>
      {| env := set_opens (<[promise := settle_open req (Failed err)]>
                             (opens (env s))) (env s);
         tasks := resume_open promise (inr err) <$> tasks s |}
  | None =>
      let c := {| conn_name := or_name req |} in
      {| env := set_world (upgrade (world (env s)) (or_name req) (or_store req))
                  (set_opens (<[promise := settle_open req (Succeeded c)]>
                                (opens (env s))) (env s));
         tasks := resume_open promise (inl c) <$> tasks s |}
  end.

(** The completion of a storage request. *)
Definition complete_request {A} (os : IDBObjectStore) (r : request)
    (k : reqresult -> prog H A) (failure : option error) (e : Env)
  : Env * tstate H A :=
  match failure with
  | Some err => (e, Settled (Rejected err))
  | None =>
      let name := conn_name (os_conn os) in
      match find_table (world e) name (os_name os) with
      | Some t =>
          let '(t', res) := exec_request r t in
          (set_world (write_table (world e) name (os_name os) t') e,
           Ready (k res))
      | None => (e, Settled (Rejected (DOMException "InvalidStateError")))
      end
  end.

Definition step (s : Sys) (a : action) : Sys :=
  match a with
  | Call m =>
      let '(e, st) := run_sync (invoke m) (env s) in
      {| env := e; tasks := tasks s ++ [st] |}
  | OpenDone promise failure =>
      match opens (env s) !! promise with
      | Some req =>
          match or_status req with
          | Pending => complete_open promise req failure s
          | _ => s
          end
      | None => s
      end
  | Tick t =>
      match tasks s !! t with
      | Some (Ready p) =>
          let '(e, st) := run_sync p (env s) in
          {| env := e; tasks := <[t := st]> (tasks s) |}
      | _ => s
      end
  | ReqDone t failure =>
      match tasks s !! t with
      | Some (OnRequest os r k) =>
          let '(e, st) := complete_request os r k failure (env s) in
          {| env := e; tasks := <[t := st]> (tasks s) |}
      | _ => s
      end
  end.

Definition run (s : Sys) (sched : list action) : Sys :=
  fold_left step sched s.

Definition is_call (a : action) : bool :=
  match a with Call _ => true | _ => false end.

(** A schedule with the calls of the public methods left out: the turns
    of the host and of the microtask queue. *)
Definition host_only (sched : list action) : list action :=
  List.filter (fun a => negb (is_call a)) sched.

(** The open requests issued so far. *)
Definition open_count (s : Sys) : nat := length (opens (env s)).

(** Drive call [t] until it settles, the host completing what the call
    waits for; [hs] lists, per host completion, the failure it signals
    (a success past the end of the list). *)
Fixpoint drive (fuel : nat) (t : nat) (hs : list (option error)) (s : Sys)
  : Sys * option (outcome retval) :=
  match fuel with
  | O => (s, None)
  | S fuel =>
      match tasks s !! t with
      | Some (Settled o) => (s, Some o)
      | Some (Ready _) => drive fuel t hs (step s (Tick t))
      | Some (OnOpen promise _) =>
          drive fuel t (tail hs) (step s (OpenDone promise (mjoin (head hs))))
      | Some (OnRequest _ _ _) =>
          drive fuel t (tail hs) (step s (ReqDone t (mjoin (head hs))))
      | None => (s, None)
      end
  end.

(** [await handle.m(...)] with nothing else scheduled in between. *)
Definition settle (s : Sys) (m : method) (hs : list (option error))
  : Sys * option (outcome retval) :=
  drive 32 (length (tasks s)) hs (step s (Call m)).

(** *** One call on its own

    The same drive, followed on the environment alone; what is left of
    [hs] is returned too. *)
Fixpoint drive_env {A} (fuel : nat) (hs : list (option error)) (e : Env)
    (st : tstate H A) : Env * list (option error) * option (outcome A) :=
  match fuel with
  | O => (e, hs, None)
  | S fuel =>
      match st with
      | Settled o => (e, hs, Some o)
      | Ready p =>
          let '(e', st') := run_sync p e in drive_env fuel hs e' st'
      | OnOpen promise k =>
          match opens e !! promise with
          | Some req =>
              match or_status req, mjoin (head hs) with
              | Pending, Some err =>
                  drive_env fuel (tail hs)
                    (set_opens (<[promise := settle_open req (Failed err)]>
                                  (opens e)) e)
                    (Settled (Rejected err))
              | Pending, None =>
                  let c := {| conn_name := or_name req |} in
                  drive_env fuel (tail hs)
                    (set_world (upgrade (world e) (or_name req) (or_store req))
                       (set_opens (<[promise := settle_open req (Succeeded c)]>
                                     (opens e)) e))
                    (Ready (k c))
              | _, _ => drive_env fuel (tail hs) e st
              end
          | None => drive_env fuel (tail hs) e st
          end
      | OnRequest os r k =>
          let '(e', st') := complete_request os r k (mjoin (head hs)) e in
          drive_env fuel (tail hs) e' st'
      end
  end.

Definition eval {A} (fuel : nat) (p : prog H A) (e : Env)
    (hs : list (option error))
  : Env * list (option error) * option (outcome A) :=
  let '(e', st) := run_sync p e in drive_env fuel hs e' st.

Definition map_result {A B} (g : A → B)
    (x : Env * list (option error) * outcome A * nat)
  : Env * list (option error) * outcome B * nat :=
  match x with
  | (e1, hs1, Fulfilled a, n) => (e1, hs1, Fulfilled (g a), n)
  | (e1, hs1, Rejected err, n) => (e1, hs1, Rejected err, n)
  end.

Definition later {A} (n : nat)
    (r : option (Env * list (option error) * outcome A * nat))
  : option (Env * list (option error) * outcome A * nat) :=
  (fun x => (x.1, n + x.2)%nat) <$> r.

(** A body run from start to end with nothing else in between, by
    recursion on the body: the environment and the host completions left,
    the outcome, and how many turns of [drive] it takes.  Nothing is
    returned for a body that waits for a promise nobody made. *)
Fixpoint exec {A} (p : prog H A) (e : Env) (hs : list (option error))
  : option (Env * list (option error) * outcome A * nat) :=
  match p with
  | Ret a => Some (e, hs, Fulfilled a, O)
  | Throw err => Some (e, hs, Rejected err, O)
  | This k => exec (k (this e)) e hs
  | SetThis h p => exec p (set_this h e) hs
  | Open name version store k =>
      exec (k (length (opens e))) (issue_open name version store e) hs
  | Await promise k =>
      match opens e !! promise with
      | Some req =>
          match or_status req with
          | Succeeded c => later 1 (exec (k c) e hs)
          | Failed err => Some (e, hs, Rejected err, O)
          | Pending =>
              match mjoin (head hs) with
              | Some err =>
                  Some (set_opens (<[promise := settle_open req (Failed err)]>
                                     (opens e)) e,
                        tail hs, Rejected err, 1%nat)
              | None =>
                  let c := {| conn_name := or_name req |} in
                  later 2
                    (exec (k c)
                       (set_world
                          (upgrade (world e) (or_name req) (or_store req))
                          (set_opens
                             (<[promise := settle_open req (Succeeded c)]>
                                (opens e)) e))
                       (tail hs))
              end
          end
      | None => None
      end
  | Yield p => later 1 (exec p e hs)
  | Transaction c store mode k =>
      match find_table (world e) (conn_name c) store with
      | Some _ =>
          exec (k {| os_conn := c; os_name := store; os_mode := mode |})
            (log (EvTransaction (conn_name c) store mode) e) hs
      | None => Some (e, hs, Rejected (DOMException "NotFoundError"), O)
      end
  | Request os r k =>
      match os_mode os, mutating r with
      | readonly, true =>
          Some (e, hs, Rejected (DOMException "ReadOnlyError"), O)
      | _, _ =>
          let name := conn_name (os_conn os) in
          let e1 := log (EvRequest name (os_name os) r) e in
          match mjoin (head hs) with
          | Some err => Some (e1, tail hs, Rejected err, 1%nat)
          | None =>
              match find_table (world e1) name (os_name os) with
              | Some t =>
                  later 2
                    (exec (k (exec_request r t).2)
                       (set_world
                          (write_table (world e1) name (os_name os)
                             (exec_request r t).1) e1)
                       (tail hs))
              | None =>
                  Some (e1, tail hs,
                        Rejected (DOMException "InvalidStateError"), 1%nat)
              end
          end
      end
  end.

End Machine.

(** ** The lazy handle: the connection is opened on first use *)

Module Lazy.

Record IDBKV := {
  db : string;
  store : string;
  instance : option IDBDatabase
}.

(** [new IDBKV(db, store = "kv")]: the body of the constructor is empty,
    the parameter properties are assigned. *)
Definition constructor (db : string) (store : option string)
  : prog IDBKV unit :=
  SetThis {| db := db; store := default "kv" store; instance := None |}
    (Ret ()).

Definition with_instance (c : IDBDatabase) (this : IDBKV) : IDBKV :=
  {| db := db this; store := store this; instance := Some c |}.

Definition resolve : prog IDBKV IDBDatabase :=
  This (fun this =>
    match instance this with
    | None =>
        instance ← Open (db this) 1 (store this) (fun promise =>
                     Await promise Ret);
        This (fun this => SetThis (with_instance instance this) (Ret instance))
    | Some instance => Ret instance
    end).

Definition access (mode : IDBTransactionMode) : prog IDBKV IDBObjectStore :=
  db ← await resolve;
  This (fun this => Transaction db (store this) mode Ret).

Definition get (key : IDBValidKey) : prog IDBKV jsval :=
  store ← await (access readonly);
  Request store (ReqGet key) (fun result => Ret (as_value result)).

Definition set (key : IDBValidKey) (val : jsval) : prog IDBKV unit :=
  store ← await (access readwrite);
  Request store (ReqPut val key) (fun _ => Ret ()).

(** The caller's [action]: the new value, or what it throws or rejects
    with; synchronous or not, [update] awaits it. *)
Definition run_action (action : jsval -> jsval + error) (value : jsval)
  : prog IDBKV jsval :=
  match action value with
  | inl next => Ret next
  | inr err => Throw err
  end.

Definition update (key : IDBValidKey) (action : jsval -> jsval + error)
  : prog IDBKV unit :=
  value ← await (get key);
  next ← await (run_action action value);
  await (set key next).

Definition delete (key : IDBValidKey) : prog IDBKV unit :=
  store ← await (access readwrite);
  Request store (ReqDelete key) (fun _ => Ret ()).

Definition clear : prog IDBKV unit :=
  store ← await (access readwrite);
  Request store ReqClear (fun _ => Ret ()).

Definition keys : prog IDBKV (list IDBValidKey) :=
  store ← await (access readonly);
  Request store ReqGetAllKeys (fun result => Ret (as_keys result)).

Definition values : prog IDBKV (list jsval) :=
  store ← await (access readonly);
  Request store ReqGetAll (fun result => Ret (as_values result)).

Definition has (key : IDBValidKey) : prog IDBKV bool :=
  store ← await (access readonly);
  Request store (ReqGetKey key) (fun result => Ret (is_defined result)).

(** The public methods, as a caller invokes them. *)
Inductive method :=
| MGet (key : IDBValidKey)
| MSet (key : IDBValidKey) (val : jsval)
| MUpdate (key : IDBValidKey) (action : jsval -> jsval + error)
| MDelete (key : IDBValidKey)
| MClear
| MKeys
| MValues
| MHas (key : IDBValidKey).

Definition invoke (m : method) : prog IDBKV retval :=
  match m with
  | MGet key => RetValue <$> get key
  | MSet key val => (fun _ => RetVoid) <$> set key val
  | MUpdate key action => (fun _ => RetVoid) <$> update key action
  | MDelete key => (fun _ => RetVoid) <$> delete key
  | MClear => (fun _ => RetVoid) <$> clear
  | MKeys => RetKeys <$> keys
  | MValues => RetValues <$> values
  | MHas key => RetBool <$> has key
  end.

(** Before the constructor runs: the host has the databases [w], and the
    object is allocated with no field set. *)
Definition blank (w : databases) : Env :=
  {| world := w; this := {| db := ""; store := ""; instance := None |};
     opens := []; trace := [] |}.

(** The handle just constructed. *)
Definition init (w : databases) (db : string) (store : option string)
  : Sys (H := IDBKV) :=
  {| env := (run_sync (constructor db store) (blank w)).1; tasks := [] |}.

Definition step := step invoke.
Definition run := run invoke.
Definition settle := settle invoke.

(** A handle on a host that has no database yet, and that handle after
    [await set("a", 1)], then after [await set("a", 2)]. *)
Definition sample : Sys (H := IDBKV) := init ∅ "db" None.
Definition sample_a : Sys (H := IDBKV) :=
  (settle sample (MSet (KStr "a") (Num 1)) []).1.
Definition sample_a2 : Sys (H := IDBKV) :=
  (settle sample_a (MSet (KStr "a") (Num 2)) []).1.
(** After [set("a", 1)] and [delete("a")]; after [set("b", 2)] and
    [set("a", 1)]; after [set("a", undefined)]. *)
Definition sample_gone : Sys (H := IDBKV) :=
  (settle sample_a (MDelete (KStr "a")) []).1.
Definition sample_ba : Sys (H := IDBKV) :=
  (settle (settle sample (MSet (KStr "b") (Num 2)) []).1
     (MSet (KStr "a") (Num 1)) []).1.
Definition sample_undefined : Sys (H := IDBKV) :=
  (settle sample (MSet (KStr "a") Undefined) []).1.

(** [set("～", 1)] and then [set("😀", 2)] on a new handle, turn by turn:
    the first call opens the connection, the second finds it cached.
    U+FF5E is one code unit, U+1F600 a surrogate pair. *)
Definition wide_writes : list (action (method := method)) :=
  [Call (MSet (KStr "～") (Num 1)); OpenDone 0 None; Tick 0; Tick 0; Tick 0;
   ReqDone 0 None; Tick 0;
   Call (MSet (KStr "😀") (Num 2)); Tick 1; Tick 1; Tick 1; ReqDone 1 None;
   Tick 1].
Definition sample_wide : Sys (H := IDBKV) := run sample wide_writes.

(** The handle after [await set("n", v0)]. *)
Definition counter (v0 : jsval) : Sys (H := IDBKV) :=
  (settle sample (MSet (KStr "n") v0) []).1.

(** Two [update] of the key "n" started one after the other on [counter],
    the host serving the two reads before either write. *)
Definition racing_updates (f1 f2 : jsval → jsval) : list action :=
  [Call (MUpdate (KStr "n") (fun v => inl (f1 v)));
   Call (MUpdate (KStr "n") (fun v => inl (f2 v)));
   Tick 1; Tick 2; Tick 1; Tick 2;
   ReqDone 1 None; ReqDone 2 None;
   Tick 1; Tick 2; Tick 1; Tick 2; Tick 1; Tick 2; Tick 1; Tick 2;
   Tick 1; Tick 2;
   ReqDone 1 None; ReqDone 2 None;
   Tick 1; Tick 2; Tick 1; Tick 2].

(** A host whose database "db" was made with another store, and a handle
    constructed on it for the default store. *)
Definition foreign : databases := {["db" := {["other" := []]}]}.
Definition stranger : Sys (H := IDBKV) := init foreign "db" None.

(** The open request [resolve] issues while nothing is cached. *)
Definition fresh_request (e : Env) : open_request :=
  {| or_name := db (this e); or_version := 1; or_store := store (this e);
     or_status := Pending |}.

Definition connection (e : Env) : IDBDatabase :=
  {| conn_name := db (this e) |}.

(** The environment once that request has failed with [err]. *)
Definition refuse (err : error) (e : Env) : Env :=
  let e1 := issue_open (db (this e)) 1 (store (this e)) e in
  set_opens (<[length (opens e) := settle_open (fresh_request e) (Failed err)]>
               (opens e1)) e1.

(** The environment once that request has succeeded and [resolve] has
    cached the connection. *)
Definition connect (e : Env) : Env :=
  let e1 := issue_open (db (this e)) 1 (store (this e)) e in
  set_this (with_instance (connection e) (this e))
    (set_world (upgrade (world e) (db (this e)) (store (this e)))
       (set_opens
          (<[length (opens e) :=
               settle_open (fresh_request e) (Succeeded (connection e))]>
             (opens e1)) e1)).

(** The log once a call has opened its transaction on [c] and placed
    its request [r]. *)
Definition requested (c : IDBDatabase) (mode : IDBTransactionMode)
    (r : request) (e : Env) : Env :=
  log (EvRequest (conn_name c) (store (this e)) r)
    (log (EvTransaction (conn_name c) (store (this e)) mode) e).

(** The table [t] of [c] once the host has carried out [r]. *)
Definition committed (c : IDBDatabase) (r : request) (t : table) (e : Env)
  : Env :=
  set_world (write_table (world e) (conn_name c) (store (this e))
               (exec_request r t).1) e.

(** The table the next call works on: the one of the cached connection
    or, while nothing is cached, the one of the connection the call opens
    (a database that does not exist yet gets its store, empty). *)
Definition current_table (e : Env) : option table :=
  match instance (this e) with
  | Some c => find_table (world e) (conn_name c) (store (this e))
  | None =>
      find_table (upgrade (world e) (db (this e)) (store (this e)))
        (db (this e)) (store (this e))
  end.

(** *** One call, start to end

    The shape the source gives to every method but [update]: one
    transaction in [mode], one request [r], and [f] of its result. *)
Definition request_method {A} (mode : IDBTransactionMode) (r : request)
    (f : reqresult → A) : prog IDBKV A :=
  store ← await (access mode);
  Request store r (fun result => Ret (f result)).

Definition plan (m : method)
  : option (IDBTransactionMode * request * (reqresult → retval)) :=
  match m with
  | MGet key => Some (readonly, ReqGet key, fun r => RetValue (as_value r))
  | MSet key val => Some (readwrite, ReqPut val key, fun _ => RetVoid)
  | MUpdate _ _ => None
  | MDelete key => Some (readwrite, ReqDelete key, fun _ => RetVoid)
  | MClear => Some (readwrite, ReqClear, fun _ => RetVoid)
  | MKeys => Some (readonly, ReqGetAllKeys, fun r => RetKeys (as_keys r))
  | MValues => Some (readonly, ReqGetAll, fun r => RetValues (as_values r))
  | MHas key => Some (readonly, ReqGetKey key, fun r => RetBool (is_defined r))
  end.

(** Such a call once it has the connection [c]; [n] turns were taken to
    get it. *)
Definition through {A} (c : IDBDatabase) (mode : IDBTransactionMode)
    (r : request) (f : reqresult → A) (e : Env) (hs : list (option error))
    (n : nat) : Env * list (option error) * outcome A * nat :=
  match find_table (world e) (conn_name c) (store (this e)) with
  | None => (e, hs, Rejected (DOMException "NotFoundError"), 1 + n)%nat
  | Some t =>
      match mjoin (head hs) with
      | Some err => (requested c mode r e, tail hs, Rejected err, 3 + n)%nat
      | None =>
          (committed c r t (requested c mode r e), tail hs,
           Fulfilled (f (exec_request r t).2), 4 + n)%nat
      end
  end.

(** Such a call from its start. *)
Definition once {A} (mode : IDBTransactionMode) (r : request)
    (f : reqresult → A) (e : Env) (hs : list (option error))
  : Env * list (option error) * outcome A * nat :=
  match instance (this e) with
  | Some c => through c mode r f e hs 0
  | None =>
      match mjoin (head hs) with
      | Some err => (refuse err e, tail hs, Rejected err, 1%nat)
      | None => through (connection e) mode r f (connect e) (tail hs) 2
      end
  end.

(** [update] from its start: a [get], the caller's [action], a [set]. *)
Definition update_once (key : IDBValidKey) (action : jsval → jsval + error)
    (e : Env) (hs : list (option error))
  : Env * list (option error) * outcome retval * nat :=
  match once readonly (ReqGet key) as_value e hs with
  | (e1, hs1, Fulfilled value, n) =>
      match action value with
      | inl next =>
          match once readwrite (ReqPut next key) (fun _ => RetVoid) e1 hs1 with
          | (e2, hs2, Fulfilled _, m) =>
              (e2, hs2, Fulfilled RetVoid, n + m + 3)%nat
          | (e2, hs2, Rejected err, m) =>
              (e2, hs2, Rejected err, n + m + 2)%nat
          end
      | inr err => (e1, hs1, Rejected err, n + 1)%nat
      end
  | (e1, hs1, Rejected err, n) => (e1, hs1, Rejected err, n)
  end.

(** Any public method from its start. *)
Definition sequential (m : method) (e : Env) (hs : list (option error))
  : Env * list (option error) * outcome retval * nat :=
  match plan m, m with
  | Some (mode, r, f), _ => once mode r f e hs
  | None, MUpdate key action => update_once key action e hs
  | None, _ => (e, hs, Rejected (DOMException "TypeError"), O)
  end.

(** How many host completions a successful [get] takes: the request,
    and before it the open request if nothing is cached. *)
Definition completions (e : Env) : nat :=
  match instance (this e) with Some _ => 1 | None => 2 end.

End Lazy.

(** ** The eager handle of [src/index.ts]: the constructor opens *)

Module Eager.

(** [promise] is unset only while the constructor runs. *)
Record IDBKV := {
  db : string;
  store : string;
  promise : option nat
}.

Definition with_promise (p : nat) (this : IDBKV) : IDBKV :=
  {| db := db this; store := store this; promise := Some p |}.

Definition open : prog IDBKV nat :=
  This (fun this => Open (db this) 1 (store this) Ret).

Definition constructor (db : string) (store : option string)
  : prog IDBKV unit :=
  SetThis {| db := db; store := default "kv" store; promise := None |}
    (p ← open;
     This (fun this => SetThis (with_promise p this) (Ret ()))).

Definition access (mode : IDBTransactionMode) : prog IDBKV IDBObjectStore :=
  This (fun this =>
    match promise this with
    | Some p =>
        db ← Await p Ret;
        This (fun this => Transaction db (store this) mode Ret)
    | None => Throw (DOMException "TypeError")
    end).

Definition get (key : IDBValidKey) : prog IDBKV jsval :=
  store ← await (access readonly);
  Request store (ReqGet key) (fun result => Ret (as_value result)).

Definition set (key : IDBValidKey) (val : jsval) : prog IDBKV unit :=
  store ← await (access readwrite);
  Request store (ReqPut val key) (fun _ => Ret ()).

Definition delete (key : IDBValidKey) : prog IDBKV unit :=
  store ← await (access readwrite);
  Request store (ReqDelete key) (fun _ => Ret ()).

Definition clear : prog IDBKV unit :=
  store ← await (access readwrite);
  Request store ReqClear (fun _ => Ret ()).

Definition keys : prog IDBKV (list IDBValidKey) :=
  store ← await (access readonly);
  Request store ReqGetAllKeys (fun result => Ret (as_keys result)).

Definition values : prog IDBKV (list jsval) :=
  store ← await (access readonly);
  Request store ReqGetAll (fun result => Ret (as_values result)).

Inductive method :=
| MGet (key : IDBValidKey)
| MSet (key : IDBValidKey) (val : jsval)
| MDelete (key : IDBValidKey)
| MClear
| MKeys
| MValues.

Definition invoke (m : method) : prog IDBKV retval :=
  match m with
  | MGet key => RetValue <$> get key
  | MSet key val => (fun _ => RetVoid) <$> set key val
  | MDelete key => (fun _ => RetVoid) <$> delete key
  | MClear => (fun _ => RetVoid) <$> clear
  | MKeys => RetKeys <$> keys
  | MValues => RetValues <$> values
  end.

Definition blank (w : databases) : Env :=
  {| world := w; this := {| db := ""; store := ""; promise := None |};
     opens := []; trace := [] |}.

Definition init (w : databases) (db : string) (store : option string)
  : Sys (H := IDBKV) :=
  {| env := (run_sync (constructor db store) (blank w)).1; tasks := [] |}.

Definition step := step invoke.
Definition run := run invoke.
Definition settle := settle invoke.

(** *** One call, start to end *)

Definition plan (m : method)
  : option (IDBTransactionMode * request * (reqresult → retval)) :=
  match m with
  | MGet key => Some (readonly, ReqGet key, fun r => RetValue (as_value r))
  | MSet key val => Some (readwrite, ReqPut val key, fun _ => RetVoid)
  | MDelete key => Some (readwrite, ReqDelete key, fun _ => RetVoid)
  | MClear => Some (readwrite, ReqClear, fun _ => RetVoid)
  | MKeys => Some (readonly, ReqGetAllKeys, fun r => RetKeys (as_keys r))
  | MValues => Some (readonly, ReqGetAll, fun r => RetValues (as_values r))
  end.

Definition requested (c : IDBDatabase) (mode : IDBTransactionMode)
    (r : request) (e : Env) : Env :=
  log (EvRequest (conn_name c) (store (this e)) r)
    (log (EvTransaction (conn_name c) (store (this e)) mode) e).

Definition committed (c : IDBDatabase) (r : request) (t : table) (e : Env)
  : Env :=
  set_world (write_table (world e) (conn_name c) (store (this e))
               (exec_request r t).1) e.

(** A call once the promise has given the connection [c], after [n]
    turns. *)
Definition through {A} (c : IDBDatabase) (mode : IDBTransactionMode)
    (r : request) (f : reqresult → A) (e : Env) (hs : list (option error))
    (n : nat) : Env * list (option error) * outcome A * nat :=
  match find_table (world e) (conn_name c) (store (this e)) with
  | None => (e, hs, Rejected (DOMException "NotFoundError"), n)
  | Some t =>
      match mjoin (head hs) with
      | Some err => (requested c mode r e, tail hs, Rejected err, n + 2)%nat
      | None =>
          (committed c r t (requested c mode r e), tail hs,
           Fulfilled (f (exec_request r t).2), n + 3)%nat
      end
  end.

(** The environment once the open request [req], the [p]-th, has
    completed. *)
Definition opened (p : nat) (req : open_request) (e : Env (H := IDBKV))
  : Env :=
  set_world (upgrade (world e) (or_name req) (or_store req))
    (set_opens
       (<[p := settle_open req (Succeeded {| conn_name := or_name req |})]>
          (opens e)) e).

Definition failed (p : nat) (req : open_request) (err : error)
    (e : Env (H := IDBKV)) : Env :=
  set_opens (<[p := settle_open req (Failed err)]> (opens e)) e.

(** A call from its start, the promise of the handle being the open
    request [req], the [p]-th. *)
Definition once {A} (p : nat) (req : open_request)
    (mode : IDBTransactionMode) (r : request) (f : reqresult → A) (e : Env)
    (hs : list (option error))
  : Env * list (option error) * outcome A * nat :=
  match or_status req with
  | Succeeded c => through c mode r f e hs 1
  | Failed err => (e, hs, Rejected err, O)
  | Pending =>
      match mjoin (head hs) with
      | Some err => (failed p req err e, tail hs, Rejected err, 1%nat)
      | None =>
          through {| conn_name := or_name req |} mode r f (opened p req e)
            (tail hs) 2
      end
  end.

(** The table the next call works on. *)
Definition current_table (e : Env) : option table :=
  req ← promise (this e) ≫= (opens e !!.);
  match or_status req with
  | Succeeded c => find_table (world e) (conn_name c) (store (this e))
  | Failed _ => None
  | Pending =>
      find_table (upgrade (world e) (or_name req) (or_store req))
        (or_name req) (store (this e))
  end.

End Eager.

(** * Facts *)

(** ** The key order *)

Lemma units_compare_refl s : units_compare s s = Eq.
Proof.
  induction s as [|x s IH]; simpl; [done|]. by rewrite N.compare_refl.
Qed.

Lemma units_compare_eq s t : units_compare s t = Eq → s = t.
Proof.
  revert t. induction s as [|x s IH]; intros [|y t]; simpl; try done.
  destruct (N.compare_spec x y) as [->|_|_]; try done.
  by intros ->%IH.
Qed.

Lemma units_compare_gt_lt s t :
  units_compare s t = Gt → units_compare t s = Lt.
Proof.
  revert t. induction s as [|x s IH]; intros [|y t]; simpl; try done.
  rewrite (N.compare_antisym x y).
  destruct (N.compare x y); simpl; try done. apply IH.
Qed.

Lemma units_compare_trans s t u :
  units_compare s t = Lt → units_compare t u = Lt → units_compare s u = Lt.
Proof.
  revert t u. induction s as [|x s IH]; intros [|y t] [|z u]; simpl; try done.
  destruct (N.compare_spec x y) as [->|Hxy|Hxy]; try done.
  - destruct (N.compare y z); try done. apply IH.
  - destruct (N.compare_spec y z) as [<-|Hyz|Hyz]; try done.
    + intros _ _. by apply N.compare_lt_iff in Hxy as ->.
    + intros _ _. assert (x < z)%N as Hxz by lia.
      by apply N.compare_lt_iff in Hxz as ->.
Qed.

Lemma key_compare_refl k : key_compare k k = Eq.
Proof.
  destruct k as [n|s]; simpl.
  - apply Z.compare_refl.
  - apply units_compare_refl.
Qed.

Lemma key_compare_eq a b : key_compare a b = Eq → a = b.
Proof.
  destruct a as [x|s], b as [y|t]; simpl; try done.
  - by intros ->%Z.compare_eq.
  - by intros ->%units_compare_eq.
Qed.

Lemma key_compare_gt_lt a b : key_compare a b = Gt → key_compare b a = Lt.
Proof.
  destruct a as [x|s], b as [y|t]; simpl; try done.
  - intros Hgt. apply Z.compare_lt_iff. apply Z.compare_gt_iff in Hgt. lia.
  - apply units_compare_gt_lt.
Qed.

#[global] Instance key_lt_trans : Transitive key_lt.
Proof.
  intros [x|s] [y|t] [z|u]; unfold key_lt; simpl; try done.
  - rewrite !Z.compare_lt_iff. lia.
  - apply units_compare_trans.
Qed.

Lemma key_lt_irrefl k : ¬ key_lt k k.
Proof. unfold key_lt. by rewrite key_compare_refl. Qed.

Lemma key_lt_ne a b : key_lt a b → key_compare b a ≠ Eq.
Proof.
  intros Hlt Heq. apply key_compare_eq in Heq as ->.
  by apply key_lt_irrefl in Hlt.
Qed.

(** ** Tables *)

Section TableFacts.
Implicit Types (k : IDBValidKey) (v : jsval) (t : table).

Lemma lookup_put_same k v t : lookup_record k (put_record v k t) = Some v.
Proof.
  induction t as [|[k' v'] t IH]; simpl.
  - by rewrite key_compare_refl.
  - destruct (key_compare k k') eqn:Hc; simpl.
    + by rewrite key_compare_refl.
    + by rewrite key_compare_refl.
    + by rewrite Hc.
Qed.

Lemma lookup_put_other k k' v t :
  k ≠ k' → lookup_record k' (put_record v k t) = lookup_record k' t.
Proof.
  intros Hne. induction t as [|[k0 v0] t IH]; simpl.
  - destruct (key_compare k' k) eqn:Hc; try done.
    by apply key_compare_eq in Hc.
  - destruct (key_compare k k0) eqn:Hc; simpl.
    + apply key_compare_eq in Hc as <-.
      destruct (key_compare k' k) eqn:Hc'; try done.
      by apply key_compare_eq in Hc'.
    + destruct (key_compare k' k) eqn:Hc'; try done.
      by apply key_compare_eq in Hc'.
    + by rewrite IH.
Qed.

Lemma lookup_delete_same k t : lookup_record k (delete_record k t) = None.
Proof.
  induction t as [|[k' v'] t IH]; simpl; [done|].
  destruct (key_compare k k') eqn:Hc; simpl; by rewrite ?Hc.
Qed.

Lemma lookup_delete_other k k' t :
  k ≠ k' → lookup_record k' (delete_record k t) = lookup_record k' t.
Proof.
  intros Hne. induction t as [|[k0 v0] t IH]; simpl; [done|].
  destruct (key_compare k k0) eqn:Hc; simpl; rewrite ?IH; try done.
  apply key_compare_eq in Hc as <-.
  destruct (key_compare k' k) eqn:Hc'; try done.
  by apply key_compare_eq in Hc'.
Qed.

Lemma delete_absent k t : lookup_record k t = None → delete_record k t = t.
Proof.
  induction t as [|[k' v'] t IH]; simpl; [done|].
  destruct (key_compare k k'); try done; intros Hn; by rewrite IH.
Qed.

Lemma lookup_key_record k t :
  lookup_key k t = (fun _ => k) <$> lookup_record k t.
Proof.
  induction t as [|[k' v'] t IH]; simpl; [done|].
  destruct (key_compare k k') eqn:Hc; try done.
  by apply key_compare_eq in Hc as ->.
Qed.

Lemma elem_of_keys_lookup k t :
  k ∈ all_keys t ↔ is_Some (lookup_record k t).
Proof.
  induction t as [|[k' v'] t IH]; simpl.
  - split; [by intros ?%elem_of_nil | by intros [? ?]].
  - rewrite elem_of_cons, IH. destruct (key_compare k k') eqn:Hc.
    + apply key_compare_eq in Hc as ->. split; eauto.
    + split; [intros [->|?]; [|done] | by right].
      by rewrite key_compare_refl in Hc.
    + split; [intros [->|?]; [|done] | by right].
      by rewrite key_compare_refl in Hc.
Qed.

(** Every key of [put_record v k t] is [k] or a key of [t]. *)
Lemma keys_put k v t k' :
  k' ∈ all_keys (put_record v k t) → k' = k ∨ k' ∈ all_keys t.
Proof.
  rewrite !elem_of_keys_lookup. destruct (decide (k = k')) as [->|Hne].
  - by left.
  - rewrite lookup_put_other by done. by right.
Qed.

Lemma keys_delete k t k' :
  k' ∈ all_keys (delete_record k t) → k' ∈ all_keys t.
Proof.
  rewrite !elem_of_keys_lookup. destruct (decide (k = k')) as [->|Hne].
  - rewrite lookup_delete_same. by intros [? ?].
  - by rewrite lookup_delete_other.
Qed.

Lemma sorted_cons k v t :
  sorted_table ((k, v) :: t) ↔
  sorted_table t ∧ Forall (key_lt k) (all_keys t).
Proof. unfold sorted_table. simpl. rewrite StronglySorted_cons. tauto. Qed.

Lemma sorted_nil : sorted_table [].
Proof. constructor. Qed.

Lemma sorted_put k v t : sorted_table t → sorted_table (put_record v k t).
Proof.
  induction t as [|[k' v'] t IH]; simpl; intros Hs.
  - apply sorted_cons. split; [apply sorted_nil | constructor].
  - pose proof Hs as [Ht Hall]%sorted_cons.
    destruct (key_compare k k') eqn:Hc.
    + apply key_compare_eq in Hc as ->. by apply sorted_cons.
    + apply sorted_cons. split; [done|]. simpl. constructor; [done|].
      eapply Forall_impl; [done|]. intros k0 Hk0. by transitivity k'.
    + apply sorted_cons. split; [by apply IH|].
      apply Forall_forall. intros k0 [->|Hin]%keys_put.
      * by apply key_compare_gt_lt.
      * by eapply Forall_forall in Hall.
Qed.

Lemma sorted_delete k t : sorted_table t → sorted_table (delete_record k t).
Proof.
  induction t as [|[k' v'] t IH]; simpl; intros Hs; [done|].
  pose proof Hs as [Ht Hall]%sorted_cons.
  assert (sorted_table ((k', v') :: delete_record k t)).
  { apply sorted_cons. split; [by apply IH|].
    apply Forall_forall. intros k0 Hin%keys_delete.
    by eapply Forall_forall in Hall. }
  destruct (key_compare k k'); by auto.
Qed.

Lemma sorted_exec r t : sorted_table t → sorted_table (exec_request r t).1.
Proof.
  destruct r; simpl; auto using sorted_put, sorted_delete, sorted_nil.
Qed.

Lemma count_key_absent k t : k ∉ all_keys t → count_key k t = 0%nat.
Proof.
  unfold count_key. induction t as [|[k' v'] t IH]; [done|].
  cbn [all_keys map fst]. rewrite not_elem_of_cons. intros [Hne Hnin].
  rewrite filter_cons. cbn [fst]. rewrite decide_False by done. by apply IH.
Qed.

Lemma count_key_cons k v t :
  count_key k ((k, v) :: t) = S (count_key k t).
Proof. unfold count_key. rewrite filter_cons. simpl. by rewrite decide_True. Qed.

Lemma count_key_cons_ne k k' v t :
  k' ≠ k → count_key k ((k', v) :: t) = count_key k t.
Proof.
  intros Hne. unfold count_key. rewrite filter_cons. simpl.
  by rewrite decide_False.
Qed.

Lemma sorted_head_absent k v t : sorted_table ((k, v) :: t) → k ∉ all_keys t.
Proof.
  intros [_ Hall]%sorted_cons Hin. eapply Forall_forall in Hall; [|done].
  by apply key_lt_irrefl in Hall.
Qed.

(** In a sorted table a write leaves exactly one record under its key. *)
Lemma count_key_put k v t :
  sorted_table t → count_key k (put_record v k t) = 1%nat.
Proof.
  induction t as [|[k' v'] t IH]; simpl; intros Hs;
    [by rewrite count_key_cons|].
  pose proof Hs as [Ht Hall]%sorted_cons.
  destruct (key_compare k k') eqn:Hc.
  - apply key_compare_eq in Hc as ->.
    rewrite count_key_cons, count_key_absent; [done|].
    by eapply sorted_head_absent.
  - rewrite count_key_cons, count_key_absent; [done|].
    simpl. rewrite not_elem_of_cons. split.
    + intros ->. by rewrite key_compare_refl in Hc.
    + intros Hin. eapply Forall_forall in Hall; [|done].
      apply (key_lt_irrefl k). by transitivity k'.
  - rewrite count_key_cons_ne; [by apply IH|].
    intros ->. by rewrite key_compare_refl in Hc.
Qed.

(** In a sorted table the value at a position is the record of the key
    at that position. *)
Lemma values_aligned t i k :
  sorted_table t → all_keys t !! i = Some k →
  all_values t !! i = lookup_record k t.
Proof.
  revert i. induction t as [|[k' v'] t IH]; intros i Hs Hi; [done|].
  pose proof Hs as [Ht Hall]%sorted_cons.
  destruct i as [|i]; simpl in *.
  - injection Hi as ->. by rewrite key_compare_refl.
  - assert (key_lt k' k) as Hlt.
    { eapply Forall_forall in Hall; [done|]. by eapply list_elem_of_lookup_2. }
    destruct (key_compare k k') eqn:Hc.
    + by apply key_lt_ne in Hlt.
    + by apply IH.
    + by apply IH.
Qed.

Lemma keys_values_length t : length (all_keys t) = length (all_values t).
Proof. unfold all_keys, all_values. by rewrite !length_map. Qed.

End TableFacts.

(** ** The machine *)

Section MachineFacts.
Context {H method : Type} (invoke : method → prog H retval).

Lemma resume_open_same {A} promise res (k : IDBDatabase → prog H A) :
  resume_open promise res (OnOpen promise k) =
  match res with
  | inl c => Ready (k c)
  | inr err => Settled (Rejected err)
  end.
Proof. unfold resume_open. by rewrite decide_True. Qed.

(** Driving one call only depends on the environment and on that call. *)
Lemma drive_drive_env fuel t hs (s : Sys) st :
  tasks s !! t = Some st →
  env (drive invoke fuel t hs s).1 = (drive_env fuel hs (env s) st).1.1 ∧
  (drive invoke fuel t hs s).2 = (drive_env fuel hs (env s) st).2.
Proof.
  revert hs s st. induction fuel as [|fuel IH]; intros hs s st Ht; [done|].
  pose proof (lookup_lt_Some _ _ _ Ht) as Hlen.
  cbn [drive drive_env]. rewrite Ht.
  destruct st as [p|promise k|os r k|o]; [| | |done].
  - cbn [step]. rewrite Ht.
    destruct (run_sync p (env s)) as [e st'] eqn:Hrun.
    apply IH. cbn [tasks]. by apply list_lookup_insert_eq.
  - cbn [step].
    destruct (opens (env s) !! promise) as [req|] eqn:Hreq; [|by apply IH].
    destruct (or_status req) eqn:Hst; [|by apply IH..].
    destruct (mjoin (head hs)) as [err|]; unfold complete_open.
    + refine (IH _ {| env := _; tasks := _ |} (Settled (Rejected err)) _).
      cbn [tasks]. rewrite list_lookup_fmap, Ht.
      cbn [fmap option_fmap option_map]. by rewrite resume_open_same.
    + refine (IH _ {| env := _; tasks := _ |}
                (Ready (k {| conn_name := or_name req |})) _).
      cbn [tasks]. rewrite list_lookup_fmap, Ht.
      cbn [fmap option_fmap option_map]. by rewrite resume_open_same.
  - cbn [step]. rewrite Ht.
    destruct (complete_request os r k (mjoin (head hs)) (env s))
      as [e st'] eqn:Hreq.
    apply IH. cbn [tasks]. by apply list_lookup_insert_eq.
Qed.

Lemma settle_eval (s : Sys) m hs :
  env (settle invoke s m hs).1 = (eval 32 (invoke m) (env s) hs).1.1 ∧
  (settle invoke s m hs).2 = (eval 32 (invoke m) (env s) hs).2.
Proof.
  unfold settle, eval. cbn [step].
  destruct (run_sync (invoke m) (env s)) as [e st] eqn:Hrun.
  refine (drive_drive_env _ _ _ {| env := _; tasks := _ |} st _).
  cbn [tasks]. by rewrite lookup_app_r, Nat.sub_diag.
Qed.

Lemma later_Some {A} n (r : option (Env * list (option error) * outcome A * nat))
    (e : Env (H := H)) hs o m :
  later n r = Some (e, hs, o, m) →
  ∃ m', r = Some (e, hs, o, m') ∧ m = (n + m')%nat.
Proof.
  unfold later. destruct r as [[[[e1 hs1] o1] m1]|]; [|done].
  cbn. intros [= -> -> -> <-]. eauto.
Qed.

(** [exec] tells what the machine does with a call that is driven on
    its own, and how much fuel that takes. *)
Lemma exec_adequate {A} (p : prog H A) e hs e' hs' o n fuel :
  exec p e hs = Some (e', hs', o, n) →
  eval (S n + fuel) p e hs = (e', hs', Some o).
Proof.
  unfold eval.
  revert e hs n. induction p as [a|err|k IH|h p IH|name version store k IH
    |promise k IH|p IH|c store mode k IH|os r k IH]; intros e hs n;
    cbn [exec run_sync].
  - by intros [= -> -> <- <-].
  - by intros [= -> -> <- <-].
  - apply IH.
  - apply IH.
  - apply IH.
  - destruct (opens e !! promise) as [req|] eqn:Hreq; [|done].
    cbn [fmap option_fmap option_map].
    destruct (or_status req) eqn:Hst.
    + destruct (mjoin (head hs)) as [err|] eqn:Hhs.
      * intros [= <- <- <- <-]. cbn [drive_env plus]. by rewrite Hreq, Hst, Hhs.
      * intros (m & Hm & ->)%later_Some.
        cbn [drive_env plus]. rewrite Hreq, Hst, Hhs. by apply IH.
    + intros (m & Hm & ->)%later_Some. cbn [drive_env plus]. by apply IH.
    + by intros [= -> -> <- <-].
  - intros (m & Hm & ->)%later_Some. cbn [drive_env plus]. by apply IH.
  - destruct (find_table (world e) (conn_name c) store).
    + apply IH.
    + by intros [= -> -> <- <-].
  - destruct (os_mode os) eqn:Hmode, (mutating r) eqn:Hmut;
      try by intros [= -> -> <- <-].
    all: unfold complete_request; cbn [drive_env plus].
    all: unfold complete_request; cbn [world log].
    all: destruct (mjoin (head hs)) as [err|] eqn:Hhs;
      [by intros [= <- <- <- <-]|].
    all: destruct (find_table (world e) (conn_name (os_conn os)) (os_name os))
      as [t|] eqn:Ht; [|by intros [= <- <- <- <-]].
    all: destruct (exec_request r t) as [t' res] eqn:Hexec; cbn [fst snd].
    all: intros (m & Hm & ->)%later_Some; cbn [drive_env plus]; by apply IH.
Qed.

(** A call whose body settles within the fuel of [settle] settles the
    same way in the machine, whatever other calls are in flight. *)
Lemma settle_exec (s : Sys) m hs e' hs' o n :
  exec (invoke m) (env s) hs = Some (e', hs', o, n) → (n < 32)%nat →
  env (settle invoke s m hs).1 = e' ∧ (settle invoke s m hs).2 = Some o.
Proof.
  intros Hexec Hn. destruct (settle_eval s m hs) as [-> ->].
  replace 32%nat with (S n + (31 - n))%nat by lia.
  by rewrite (exec_adequate _ _ _ _ _ _ _ _ Hexec).
Qed.

(** Sequencing: [bind p f] runs [p], then [f] on its result, and stops
    at the first rejection. *)
Lemma exec_bind {A B} (p : prog H A) (f : A → prog H B) e hs :
  exec (bind p f) e hs =
  match exec p e hs with
  | Some (e1, hs1, Fulfilled a, n) => later n (exec (f a) e1 hs1)
  | Some (e1, hs1, Rejected err, n) => Some (e1, hs1, Rejected err, n)
  | None => None
  end.
Proof.
  assert (Hlater : ∀ n m (r : option (Env * list (option error) * outcome B * nat)),
             later (H := H) n (later m r) = later (n + m) r).
  { intros n m [[[[? ?] ?] ?]|]; [|done]. unfold later. cbn.
    do 2 f_equal. lia. }
  assert (Hl : ∀ n (r : option (Env * list (option error) * outcome A * nat)),
    match later (H := H) n r with
    | Some (e1, hs1, Fulfilled a, m) => later m (exec (f a) e1 hs1)
    | Some (e1, hs1, Rejected err, m) => Some (e1, hs1, Rejected err, m)
    | None => None
    end =
    later n match r with
    | Some (e1, hs1, Fulfilled a, m) => later m (exec (f a) e1 hs1)
    | Some (e1, hs1, Rejected err, m) => Some (e1, hs1, Rejected err, m)
    | None => None
    end).
  { intros n [[[[e1 hs1] [a|err]] m]|]; cbn; [|done..].
    by rewrite Hlater. }
  revert e hs. induction p as [a|err|k IH|h p IH|name version store k IH
    |promise k IH|p IH|c store mode k IH|os r k IH]; intros e hs;
    cbn [exec bind].
  - by destruct (exec (f a) e hs) as [[[[? ?] ?] ?]|].
  - done.
  - apply IH.
  - apply IH.
  - apply IH.
  - destruct (opens e !! promise) as [req|]; [|done].
    destruct (or_status req); [|by rewrite IH, Hl|done].
    destruct (mjoin (head hs)); [done|]. by rewrite IH, Hl.
  - by rewrite IH, Hl.
  - destruct (find_table (world e) (conn_name c) store); [apply IH|done].
  - destruct (os_mode os), (mutating r); try done.
    all: destruct (mjoin (head hs)); [done|]; cbn [world log].
    all: destruct (find_table (world e) (conn_name (os_conn os)) (os_name os));
      [|done].
    all: by rewrite IH, Hl.
Qed.

Lemma later_later {A} n m
    (r : option (Env (H := H) * list (option error) * outcome A * nat)) :
  later n (later m r) = later (n + m) r.
Proof.
  destruct r as [[[[? ?] ?] ?]|]; [|done]. unfold later. cbn.
  do 2 f_equal. lia.
Qed.

Lemma later_0 {A}
    (r : option (Env (H := H) * list (option error) * outcome A * nat)) :
  later 0 r = r.
Proof. by destruct r as [[[[? ?] ?] ?]|]. Qed.

Lemma exec_bind_assoc {A B C} (p : prog H A) (g : A → prog H B)
    (f : B → prog H C) e hs :
  exec (bind (bind p g) f) e hs = exec (bind p (fun a => bind (g a) f)) e hs.
Proof.
  revert e hs. induction p as [a|err|k IH|h p IH|name version store k IH
    |promise k IH|p IH|c store mode k IH|os r k IH]; intros e hs;
    cbn [exec bind]; try done.
  - destruct (opens e !! promise) as [req|]; [|done].
    destruct (or_status req); [|by rewrite IH|done].
    destruct (mjoin (head hs)); [done|]. by rewrite IH.
  - by rewrite IH.
  - destruct (find_table (world e) (conn_name c) store); [apply IH|done].
  - destruct (os_mode os), (mutating r); try done.
    all: destruct (mjoin (head hs)); [done|]; cbn [world log].
    all: destruct (find_table (world e) (conn_name (os_conn os)) (os_name os));
      [|done].
    all: by rewrite IH.
Qed.

Lemma exec_fmap_ret {A B} (g : A → B) (p : prog H A) e hs :
  exec (g <$> p) e hs = map_result g <$> exec p e hs.
Proof.
  unfold fmap at 1, prog_fmap. rewrite exec_bind.
  destruct (exec p e hs) as [[[[e1 hs1] [a|err]] n]|]; cbn; try done.
  do 2 f_equal. lia.
Qed.

Lemma exec_await {A} (p : prog H A) e hs :
  exec (await p) e hs =
  match exec p e hs with
  | Some (e1, hs1, Fulfilled a, n) => Some (e1, hs1, Fulfilled a, S n)
  | other => other
  end.
Proof.
  unfold await. rewrite exec_bind.
  destruct (exec p e hs) as [[[[e1 hs1] [a|err]] n]|]; cbn; try done.
  do 2 f_equal. lia.
Qed.

(** The host and the microtask queue have nothing to do while no call
    is in flight and no open request is pending. *)
Lemma step_idle (s : Sys) a :
  tasks s = [] → (∀ m, a ≠ Call m) →
  Forall (fun req => or_status req ≠ Pending) (opens (env s)) →
  step invoke s a = s.
Proof.
  intros Ht Hcall Hopens. destruct a as [m|promise failure|t|t failure].
  - by destruct (Hcall m).
  - cbn [step]. destruct (opens (env s) !! promise) as [req|] eqn:Hreq; [|done].
    eapply Forall_lookup_1 in Hopens; [|done].
    by destruct (or_status req).
  - cbn [step]. by rewrite Ht.
  - cbn [step]. by rewrite Ht.
Qed.

End MachineFacts.

(** ** The databases of the host *)

Lemma find_write_table w name st t t' :
  find_table w name st = Some t →
  find_table (write_table w name st t') name st = Some t'.
Proof.
  unfold find_table, write_table. destruct (w !! name) as [d|] eqn:Hd; [|done].
  intros _. rewrite lookup_insert_eq. cbn. by rewrite lookup_insert_eq.
Qed.

Lemma write_table_same w name st t :
  find_table w name st = Some t → write_table w name st t = w.
Proof.
  unfold find_table, write_table. destruct (w !! name) as [d|] eqn:Hd; [|done].
  cbn. intros Ht. by rewrite (insert_id d), insert_id.
Qed.

Lemma exec_request_read r t : mutating r = false → (exec_request r t).1 = t.
Proof. by destruct r. Qed.

(** ** The lazy handle *)

Section LazyFacts.
Import Lazy.
Implicit Types (e : Env (H := IDBKV)) (hs : list (option error)).

Lemma lazy_opens_fresh e :
  opens (issue_open (db (this e)) 1 (store (this e)) e) !! length (opens e)
  = Some (fresh_request e).
Proof. cbn. by rewrite lookup_app_r, Nat.sub_diag. Qed.

Lemma lazy_exec_resolve_cached e hs c :
  instance (this e) = Some c →
  exec resolve e hs = Some (e, hs, Fulfilled c, 0%nat).
Proof. intros Hi. unfold resolve. cbn [exec]. by rewrite Hi. Qed.

Lemma lazy_exec_resolve_fresh e hs :
  instance (this e) = None →
  exec resolve e hs =
  match mjoin (head hs) with
  | Some err => Some (refuse err e, tail hs, Rejected err, 1%nat)
  | None => Some (connect e, tail hs, Fulfilled (connection e), 2%nat)
  end.
Proof.
  intros Hi. unfold resolve. cbn [exec]. rewrite Hi.
  unfold mbind, prog_bind. cbn [bind exec]. rewrite lazy_opens_fresh.
  cbn [or_status fresh_request].
  by destruct (mjoin (head hs)).
Qed.

(** A call that finds nothing cached opens the connection, and goes on
    as the same call does on the handle with the connection cached. *)
Lemma lazy_exec_fresh {A} (K : IDBDatabase → prog IDBKV A) e hs :
  instance (this e) = None →
  exec (bind resolve K) e hs =
  match mjoin (head hs) with
  | Some err => Some (refuse err e, tail hs, Rejected err, 1%nat)
  | None => later 2 (exec (bind resolve K) (connect e) (tail hs))
  end.
Proof.
  intros Hi. rewrite !exec_bind, (lazy_exec_resolve_fresh _ _ Hi).
  destruct (mjoin (head hs)); [done|].
  rewrite (lazy_exec_resolve_cached (connect e) _ (connection e)) by done.
  by rewrite later_0.
Qed.

Lemma lazy_exec_access_cached mode e hs c :
  instance (this e) = Some c →
  exec (access mode) e hs =
  match find_table (world e) (conn_name c) (store (this e)) with
  | Some _ =>
      Some (log (EvTransaction (conn_name c) (store (this e)) mode) e, hs,
            Fulfilled {| os_conn := c; os_name := store (this e);
                         os_mode := mode |}, 1%nat)
  | None => Some (e, hs, Rejected (DOMException "NotFoundError"), 1%nat)
  end.
Proof.
  intros Hi. unfold access, await, mbind, prog_bind.
  rewrite !exec_bind, (lazy_exec_resolve_cached _ _ _ Hi).
  cbn [exec later fmap option_fmap option_map fst snd plus].
  by destruct (find_table (world e) (conn_name c) (store (this e))).
Qed.

Lemma lazy_exec_request_cached {A} mode r (f : reqresult → A) e hs c :
  instance (this e) = Some c →
  (mode = readonly → mutating r = false) →
  exec (request_method mode r f) e hs = Some (through c mode r f e hs 0).
Proof.
  intros Hi Hmode. unfold request_method, await, mbind, prog_bind, through.
  rewrite !exec_bind, (lazy_exec_access_cached _ _ _ _ Hi).
  destruct (find_table (world e) (conn_name c) (store (this e)))
    as [t|] eqn:Ht; [|done].
  cbn [exec later fmap option_fmap option_map fst snd plus os_mode os_conn
       os_name world log].
  assert (match mode with readonly => mutating r = false | readwrite => True end)
    as Hm by (destruct mode; auto).
  destruct mode; [rewrite Hm|];
    (destruct (mjoin (head hs)); [done|]);
    rewrite Ht; by destruct (mutating r).
Qed.

Lemma lazy_exec_request {A} mode r (f : reqresult → A) e hs :
  (mode = readonly → mutating r = false) →
  exec (request_method mode r f) e hs = Some (once mode r f e hs).
Proof.
  intros Hmode. unfold once.
  destruct (instance (this e)) as [c|] eqn:Hi.
  { by apply lazy_exec_request_cached. }
  unfold request_method, access, await, mbind, prog_bind.
  rewrite !exec_bind_assoc, (lazy_exec_fresh _ _ _ Hi).
  destruct (mjoin (head hs)); [done|].
  rewrite <- !exec_bind_assoc.
  pose proof (lazy_exec_request_cached mode r f (connect e) (tail hs)
                (connection e) eq_refl Hmode) as Hc.
  unfold request_method, access, await, mbind, prog_bind in Hc. rewrite Hc.
  unfold through.
  destruct (find_table (world (connect e)) (conn_name (connection e))
              (store (this (connect e)))); [|done].
  by destruct (mjoin (head (tail hs))).
Qed.

Lemma lazy_plan_mode m mode r f :
  plan m = Some (mode, r, f) → mode = readonly → mutating r = false.
Proof. destruct m; intros [= <- <- <-]; done. Qed.

Lemma lazy_once_map {A B} (g : A → B) mode r (f : reqresult → A) e hs :
  map_result g (once mode r f e hs) = once mode r (fun x => g (f x)) e hs.
Proof.
  unfold once, through.
  destruct (instance (this e)) as [c|].
  - destruct (find_table (world e) (conn_name c) (store (this e))); [|done].
    by destruct (mjoin (head hs)).
  - destruct (mjoin (head hs)); [done|].
    destruct (find_table (world (connect e)) (conn_name (connection e))
                (store (this (connect e)))); [|done].
    by destruct (mjoin (head (tail hs))).
Qed.

(** Every method but [update] is one request. *)
Lemma lazy_exec_invoke m mode r f e hs :
  plan m = Some (mode, r, f) →
  exec (invoke m) e hs = Some (once mode r f e hs).
Proof.
  intros Hplan.
  destruct m; cbn [plan] in Hplan; try discriminate;
    injection Hplan as <- <- <-; cbn [invoke]; rewrite exec_fmap_ret.
  - rewrite (lazy_exec_request readonly (ReqGet key) as_value) by done.
    cbn [fmap option_fmap option_map]. f_equal. apply (lazy_once_map RetValue).
  - rewrite (lazy_exec_request readwrite (ReqPut val key) (fun _ => ())) by done.
    cbn [fmap option_fmap option_map]. f_equal.
    apply (lazy_once_map (fun _ => RetVoid)).
  - rewrite (lazy_exec_request readwrite (ReqDelete key) (fun _ => ())) by done.
    cbn [fmap option_fmap option_map]. f_equal.
    apply (lazy_once_map (fun _ => RetVoid)).
  - rewrite (lazy_exec_request readwrite ReqClear (fun _ => ())) by done.
    cbn [fmap option_fmap option_map]. f_equal.
    apply (lazy_once_map (fun _ => RetVoid)).
  - rewrite (lazy_exec_request readonly ReqGetAllKeys as_keys) by done.
    cbn [fmap option_fmap option_map]. f_equal. apply (lazy_once_map RetKeys).
  - rewrite (lazy_exec_request readonly ReqGetAll as_values) by done.
    cbn [fmap option_fmap option_map]. f_equal. apply (lazy_once_map RetValues).
  - rewrite (lazy_exec_request readonly (ReqGetKey key) is_defined) by done.
    cbn [fmap option_fmap option_map]. f_equal. apply (lazy_once_map RetBool).
Qed.

Lemma lazy_once_steps {A} mode r (f : reqresult → A) e hs :
  ((once mode r f e hs).2 ≤ 6)%nat.
Proof.
  unfold once, through.
  destruct (instance (this e)) as [c|].
  - destruct (find_table (world e) (conn_name c) (store (this e)));
      [destruct (mjoin (head hs))|]; cbn; lia.
  - destruct (mjoin (head hs)); [cbn; lia|].
    destruct (find_table (world (connect e)) (conn_name (connection e))
                (store (this (connect e))));
      [destruct (mjoin (head (tail hs)))|]; cbn; lia.
Qed.

(** In the machine, whatever else is in flight, a call of a method
    other than [update] that is driven on its own ends as [once] says. *)
Lemma lazy_settle_once (s : Sys) m mode r f hs :
  plan m = Some (mode, r, f) →
  env (settle s m hs).1 = (once mode r f (env s) hs).1.1.1 ∧
  (settle s m hs).2 = Some (once mode r f (env s) hs).1.2.
Proof.
  intros Hplan. pose proof (lazy_once_steps mode r f (env s) hs) as Hn.
  pose proof (lazy_exec_invoke m mode r f (env s) hs Hplan) as Hexec.
  destruct (once mode r f (env s) hs) as [[[e' hs'] o] n].
  apply (settle_exec invoke s m hs e' hs' o n Hexec). cbn in Hn. lia.
Qed.

Lemma lazy_connect_table e :
  instance (this e) = None →
  find_table (world (connect e)) (conn_name (connection e))
    (store (this (connect e))) = current_table e.
Proof. intros Hi. unfold current_table. by rewrite Hi. Qed.

(** A call that fulfils has reached the current table, carried its
    request out on it, and left the connection cached. *)
Lemma lazy_once_fulfilled {A} mode r (f : reqresult → A) e hs e' hs' x n :
  once mode r f e hs = (e', hs', Fulfilled x, n) →
  ∃ t, current_table e = Some t ∧
       current_table e' = Some (exec_request r t).1 ∧
       x = f (exec_request r t).2 ∧
       hs' = drop (completions e) hs.
Proof.
  unfold once, through, completions.
  destruct (instance (this e)) as [c|] eqn:Hi.
  - destruct (find_table (world e) (conn_name c) (store (this e)))
      as [t|] eqn:Ht; [|done].
    destruct (mjoin (head hs)); [done|].
    intros [= <- <- <- <-]. exists t. split_and!.
    + unfold current_table. by rewrite Hi.
    + unfold current_table. cbn. rewrite Hi. by eapply find_write_table.
    + done.
    + by destruct hs.
  - destruct (mjoin (head hs)); [done|].
    rewrite (lazy_connect_table _ Hi).
    destruct (current_table e) as [t|] eqn:Ht; [|done].
    destruct (mjoin (head (tail hs))); [done|].
    intros [= <- <- <- <-]. exists t. split_and!.
    + done.
    + unfold current_table at 1. cbn.
      eapply find_write_table. by rewrite <- (lazy_connect_table _ Hi) in Ht.
    + done.
    + by destruct hs as [|? [|? ?]].
Qed.

(** A call is rejected only with a failure the host signals, or because
    the database has no such store; the table is then as it was. *)
Lemma lazy_once_rejected {A} mode r (f : reqresult → A) e hs e' hs' err n :
  once mode r f e hs = (e', hs', Rejected err, n) →
  (Some err ∈ hs ∨
   (current_table e = None ∧ err = DOMException "NotFoundError")) ∧
  current_table e' = current_table e.
Proof.
  assert (Hhd : ∀ (l : list (option error)) x,
             mjoin (head l) = Some x → Some x ∈ l).
  { intros [|[y|] l] x; cbn; try done. intros [= ->]. by left. }
  unfold once, through.
  destruct (instance (this e)) as [c|] eqn:Hi.
  - destruct (find_table (world e) (conn_name c) (store (this e)))
      as [t|] eqn:Ht.
    + destruct (mjoin (head hs)) as [err'|] eqn:Hhs; [|done].
      intros [= <- <- <- <-]. split; [left; auto|done].
    + intros [= <- <- <- <-]. split; [right|done].
      unfold current_table. by rewrite Hi.
  - destruct (mjoin (head hs)) as [err'|] eqn:Hhs.
    { intros [= <- <- <- <-]. split; [left; auto|].
      unfold current_table. cbn. by rewrite Hi. }
    rewrite (lazy_connect_table _ Hi).
    destruct (current_table e) as [t|] eqn:Ht.
    + destruct (mjoin (head (tail hs))) as [err'|] eqn:Hhs'; [|done].
      intros [= <- <- <- <-]. split.
      * left. destruct hs as [|x hs]; [done|]. right. auto.
      * by rewrite <- Ht, <- (lazy_connect_table _ Hi).
    + intros [= <- <- <- <-]. split; [by right|].
      by rewrite <- Ht, <- (lazy_connect_table _ Hi).
Qed.

(** With a host that signals no failure, the call fulfils whenever the
    table is there. *)
Lemma lazy_once_quiet {A} mode r (f : reqresult → A) e t :
  current_table e = Some t →
  ∃ e' n, once mode r f e [] = (e', [], Fulfilled (f (exec_request r t).2), n).
Proof.
  unfold once, through. intros Ht.
  destruct (instance (this e)) as [c|] eqn:Hi.
  - unfold current_table in Ht. rewrite Hi in Ht. rewrite Ht. cbn. eauto.
  - cbn [head tail mjoin option_join]. rewrite (lazy_connect_table _ Hi), Ht.
    cbn. eauto.
Qed.

(** A call that only reads asks the host for no write. *)
Lemma lazy_once_read_puts {A} mode r (f : reqresult → A) e hs :
  mutating r = false →
  puts (trace (once mode r f e hs).1.1.1) = puts (trace e).
Proof.
  intros Hr.
  assert (Hreq : ∀ name st, is_put_event (EvRequest name st r) = false)
    by (by destruct r).
  unfold once, through.
  repeat match goal with
         | |- context [match ?x with _ => _ end] => destruct x
         end;
    cbn [fst snd]; unfold puts, committed, requested, refuse, connect,
      issue_open;
    cbn [trace set_opens set_world set_this log];
    rewrite ?List.filter_app; cbn [List.filter]; rewrite ?Hreq;
    cbn [is_put_event]; by rewrite ?app_nil_r.
Qed.

(** A call opens a connection exactly when none is cached. *)
Lemma lazy_once_opens {A} mode r (f : reqresult → A) e hs :
  length (opens (once mode r f e hs).1.1.1) =
  match instance (this e) with
  | Some _ => length (opens e)
  | None => S (length (opens e))
  end.
Proof.
  unfold once, through.
  repeat match goal with
         | |- context [match ?x with _ => _ end] => destruct x
         end;
    cbn [fst snd]; unfold committed, requested, refuse, connect, issue_open;
    cbn [opens set_opens set_world set_this log];
    rewrite ?length_insert, ?length_app; cbn [length]; lia.
Qed.

(** After a call the connection is cached, unless nothing was cached
    and the open request of the call failed. *)
Lemma lazy_once_instance {A} mode r (f : reqresult → A) e hs :
  instance (this (once mode r f e hs).1.1.1) =
  match instance (this e), mjoin (head hs) with
  | Some c, _ => Some c
  | None, Some _ => None
  | None, None => Some (connection e)
  end.
Proof.
  unfold once, through.
  destruct (instance (this e)) as [c|] eqn:Hi.
  - by repeat match goal with
         | |- context [match ?x with _ => _ end] => destruct x
         end.
  - destruct (mjoin (head hs)); [done|].
    by repeat match goal with
         | |- context [match ?x with _ => _ end] => destruct x
         end.
Qed.

Lemma lazy_exec_update key action e hs :
  exec (invoke (MUpdate key action)) e hs =
  Some (update_once key action e hs).
Proof.
  cbn [invoke]. rewrite exec_fmap_ret. unfold update, mbind, prog_bind.
  rewrite exec_bind, exec_await.
  rewrite (lazy_exec_request readonly (ReqGet key) as_value) by done.
  unfold update_once.
  destruct (once readonly (ReqGet key) as_value e hs)
    as [[[e1 hs1] [value|err]] n]; [|done].
  rewrite exec_bind, exec_await. unfold run_action.
  destruct (action value) as [next|err]; cbn [exec];
    [|cbn; do 3 f_equal; lia].
  rewrite exec_await.
  rewrite (lazy_exec_request readwrite (ReqPut next key) (fun _ => ())) by done.
  rewrite <- (lazy_once_map (fun _ : unit => RetVoid) readwrite
                (ReqPut next key) (fun _ => ())).
  destruct (once readwrite (ReqPut next key) (λ _ : reqresult, ()) e1 hs1)
    as [[[e2 hs2] [x|err]] m]; cbn; do 3 f_equal; lia.
Qed.

Lemma lazy_update_steps key action e hs :
  ((update_once key action e hs).2 ≤ 15)%nat.
Proof.
  unfold update_once.
  pose proof (lazy_once_steps readonly (ReqGet key) as_value e hs) as Hg.
  destruct (once readonly (ReqGet key) as_value e hs)
    as [[[e1 hs1] [value|err]] n]; cbn in Hg; [|cbn; lia].
  destruct (action value) as [next|err]; [|cbn; lia].
  pose proof (lazy_once_steps readwrite (ReqPut next key) (fun _ => RetVoid)
                e1 hs1) as Hs.
  destruct (once readwrite (ReqPut next key) (λ _ : reqresult, RetVoid) e1 hs1)
    as [[[e2 hs2] [x|err]] m]; cbn in Hs; cbn; lia.
Qed.

Lemma lazy_settle_update (s : Sys) key action hs :
  env (settle s (MUpdate key action) hs).1 =
    (update_once key action (env s) hs).1.1.1 ∧
  (settle s (MUpdate key action) hs).2 =
    Some (update_once key action (env s) hs).1.2.
Proof.
  pose proof (lazy_update_steps key action (env s) hs) as Hn.
  pose proof (lazy_exec_update key action (env s) hs) as Hexec.
  destruct (update_once key action (env s) hs) as [[[e' hs'] o] n].
  apply (settle_exec invoke s _ hs e' hs' o n Hexec). cbn in Hn. lia.
Qed.
End LazyFacts.

(** ** Calls driven on their own, in the machine *)

Section LazySettle.
Import Lazy.
Implicit Types (s : Sys (H := IDBKV)) (hs : list (option error)).

Lemma lazy_settle_fulfilled s m mode r f hs s' x :
  plan m = Some (mode, r, f) →
  settle s m hs = (s', Some (Fulfilled x)) →
  ∃ t, current_table (env s) = Some t ∧
       current_table (env s') = Some (exec_request r t).1 ∧
       x = f (exec_request r t).2.
Proof.
  intros Hplan Hs. destruct (lazy_settle_once s m mode r f hs Hplan) as [He Ho].
  rewrite Hs in He, Ho. cbn in He, Ho.
  destruct (once mode r f (env s) hs) as [[[e' hs'] o] n] eqn:Honce.
  cbn in He, Ho. injection Ho as <-. subst e'.
  apply lazy_once_fulfilled in Honce as (t & ? & ? & ? & ?). eauto.
Qed.

Lemma lazy_settle_quiet s m mode r f t :
  plan m = Some (mode, r, f) →
  current_table (env s) = Some t →
  (settle s m []).2 = Some (Fulfilled (f (exec_request r t).2)).
Proof.
  intros Hplan Ht. destruct (lazy_settle_once s m mode r f [] Hplan) as [_ ->].
  destruct (lazy_once_quiet mode r f _ _ Ht) as (e' & n & ->). done.
Qed.

Lemma lazy_settle_rejected s m mode r f hs err :
  plan m = Some (mode, r, f) →
  (settle s m hs).2 = Some (Rejected err) →
  Some err ∈ hs ∨
  (current_table (env s) = None ∧ err = DOMException "NotFoundError").
Proof.
  intros Hplan Hs. destruct (lazy_settle_once s m mode r f hs Hplan) as [_ Ho].
  rewrite Hs in Ho.
  destruct (once mode r f (env s) hs) as [[[e' hs'] o] n] eqn:Honce.
  cbn in Ho. injection Ho as <-.
  by apply lazy_once_rejected in Honce as [? _].
Qed.

(** What a call resolves to is a function of the table it reaches. *)
Lemma lazy_settle_value s m mode r f t hs x :
  plan m = Some (mode, r, f) →
  current_table (env s) = Some t →
  (settle s m hs).2 = Some (Fulfilled x) →
  x = f (exec_request r t).2.
Proof.
  intros Hplan Ht Hs.
  destruct (settle s m hs) as [s' o] eqn:Hsettle. cbn in Hs. subst o.
  destruct (lazy_settle_fulfilled _ _ _ _ _ _ _ _ Hplan Hsettle)
    as (t' & Ht' & _ & ->).
  congruence.
Qed.

(** A call of a method other than [update] always settles. *)
Lemma lazy_settle_settles s m mode r f hs :
  plan m = Some (mode, r, f) → is_Some (settle s m hs).2.
Proof.
  intros Hplan. destruct (lazy_settle_once s m mode r f hs Hplan) as [_ ->].
  eauto.
Qed.

Lemma has_result key t :
  is_defined (exec_request (ReqGetKey key) t).2 =
  bool_decide (is_Some (lookup_record key t)).
Proof.
  cbn [exec_request snd]. rewrite lookup_key_record.
  destruct (lookup_record key t); cbn [fmap option_fmap option_map is_defined].
  - by rewrite bool_decide_true.
  - rewrite bool_decide_false; [done|]. by intros [? ?].
Qed.

End LazySettle.

(** ** Reading and writing through the lazy handle *)

Section LazyClaims.
Import Lazy.
Implicit Types (s : Sys (H := IDBKV)) (hs : list (option error)).

(** C4. After [set(key, val)] has succeeded, [get(key)] resolves to [val]
    and [has(key)] to [true]: with a host that signals no failure both
    calls fulfil with these values, and whatever the host does they
    fulfil with no other value. *)
Theorem lazy_get_after_set s key val hs s' :
  settle s (MSet key val) hs = (s', Some (Fulfilled RetVoid)) →
  (settle s' (MGet key) []).2 = Some (Fulfilled (RetValue val)) ∧
  (settle s' (MHas key) []).2 = Some (Fulfilled (RetBool true)) ∧
  (∀ hs' x, (settle s' (MGet key) hs').2 = Some (Fulfilled x) →
            x = RetValue val) ∧
  (∀ hs' x, (settle s' (MHas key) hs').2 = Some (Fulfilled x) →
            x = RetBool true).
Proof.
  intros Hset.
  destruct (lazy_settle_fulfilled s (MSet key val) _ _ _ hs s' _ eq_refl Hset)
    as (t & _ & Ht' & _).
  cbn [exec_request fst] in Ht'.
  assert (Hget : RetValue (as_value (exec_request (ReqGet key)
                   (put_record val key t)).2) = RetValue val).
  { cbn. by rewrite lookup_put_same. }
  assert (Hhas : RetBool (is_defined (exec_request (ReqGetKey key)
                   (put_record val key t)).2) = RetBool true).
  { rewrite has_result, lookup_put_same. by rewrite bool_decide_true. }
  split_and!.
  - rewrite <- Hget.
    exact (lazy_settle_quiet s' (MGet key) _ _ _ _ eq_refl Ht').
  - rewrite <- Hhas.
    exact (lazy_settle_quiet s' (MHas key) _ _ _ _ eq_refl Ht').
  - intros hs' x Hx. rewrite <- Hget.
    exact (lazy_settle_value s' (MGet key) _ _ _ _ hs' x eq_refl Ht' Hx).
  - intros hs' x Hx. rewrite <- Hhas.
    exact (lazy_settle_value s' (MHas key) _ _ _ _ hs' x eq_refl Ht' Hx).
Qed.

Lemma lazy_get_after_set_witness :
  settle sample (MSet (KStr "a") (Num 1)) [] =
    (sample_a, Some (Fulfilled RetVoid)) ∧
  (settle sample_a (MGet (KStr "a")) []).2 =
    Some (Fulfilled (RetValue (Num 1))) ∧
  (settle sample_a (MHas (KStr "a")) []).2 = Some (Fulfilled (RetBool true)).
Proof.
  assert (settle sample (MSet (KStr "a") (Num 1)) [] =
            (sample_a, Some (Fulfilled RetVoid))) as Hset by (by vm_compute).
  split; [exact Hset|].
  destruct (lazy_get_after_set sample (KStr "a") (Num 1) [] sample_a Hset)
    as (Hg & Hh & _).
  by split.
Defined.

(** C5. A key that has no record in the table: [get] resolves to
    [undefined] and [has] to [false].  Neither is rejected for the key
    being absent: a rejection carries a failure the host signalled. *)
Theorem lazy_get_missing s key t :
  current_table (env s) = Some t →
  lookup_record key t = None →
  (settle s (MGet key) []).2 = Some (Fulfilled (RetValue Undefined)) ∧
  (settle s (MHas key) []).2 = Some (Fulfilled (RetBool false)) ∧
  (∀ hs, (settle s (MGet key) hs).2 = Some (Fulfilled (RetValue Undefined)) ∨
         ∃ err, Some err ∈ hs ∧
                (settle s (MGet key) hs).2 = Some (Rejected err)) ∧
  (∀ hs, (settle s (MHas key) hs).2 = Some (Fulfilled (RetBool false)) ∨
         ∃ err, Some err ∈ hs ∧
                (settle s (MHas key) hs).2 = Some (Rejected err)).
Proof.
  intros Ht Hk.
  assert (Hget : RetValue (as_value (exec_request (ReqGet key) t).2) =
                 RetValue Undefined).
  { cbn. by rewrite Hk. }
  assert (Hhas : RetBool (is_defined (exec_request (ReqGetKey key) t).2) =
                 RetBool false).
  { rewrite has_result, Hk. rewrite bool_decide_false; [done|].
    by intros [? ?]. }
  assert (Hany : ∀ m mode r f hs x,
             plan m = Some (mode, r, f) → f (exec_request r t).2 = x →
             (settle s m hs).2 = Some (Fulfilled x) ∨
             ∃ err, Some err ∈ hs ∧ (settle s m hs).2 = Some (Rejected err)).
  { intros m mode r f hs x Hplan Hx.
    destruct (lazy_settle_settles s m _ _ _ hs Hplan) as [[y|err] Ho].
    - left. rewrite Ho.
      by rewrite (lazy_settle_value s m _ _ _ t hs y Hplan Ht Ho), Hx.
    - right. exists err. split; [|done].
      destruct (lazy_settle_rejected s m _ _ _ hs err Hplan Ho)
        as [?|[Hnone _]]; [done|congruence]. }
  split_and!.
  - rewrite <- Hget. exact (lazy_settle_quiet s (MGet key) _ _ _ _ eq_refl Ht).
  - rewrite <- Hhas. exact (lazy_settle_quiet s (MHas key) _ _ _ _ eq_refl Ht).
  - intros hs. exact (Hany (MGet key) _ _ _ hs _ eq_refl Hget).
  - intros hs. exact (Hany (MHas key) _ _ _ hs _ eq_refl Hhas).
Qed.

Lemma lazy_get_missing_witness :
  current_table (env sample_a) = Some [(KStr "a", Num 1)] ∧
  lookup_record (KStr "b") [(KStr "a", Num 1)] = None ∧
  (settle sample_a (MGet (KStr "b")) []).2 =
    Some (Fulfilled (RetValue Undefined)) ∧
  (settle sample_a (MHas (KStr "b")) []).2 = Some (Fulfilled (RetBool false)).
Proof.
  assert (current_table (env sample_a) = Some [(KStr "a", Num 1)]) as Ht
    by (by vm_compute).
  assert (lookup_record (KStr "b") [(KStr "a", Num 1)] = None) as Hk
    by (by vm_compute).
  destruct (lazy_get_missing sample_a (KStr "b") _ Ht Hk) as (Hg & Hh & _).
  by split_and!.
Defined.

(** C6. A second [set] on a key overwrites: after [set(key, v1)] and
    [set(key, v2)], [get(key)] resolves to [v2], the table holds exactly
    one record under [key], and the records under other keys are those
    it had. *)
Theorem lazy_set_overwrites s key v1 v2 hs1 hs2 s1 s2 t :
  current_table (env s) = Some t →
  sorted_table t →
  settle s (MSet key v1) hs1 = (s1, Some (Fulfilled RetVoid)) →
  settle s1 (MSet key v2) hs2 = (s2, Some (Fulfilled RetVoid)) →
  (settle s2 (MGet key) []).2 = Some (Fulfilled (RetValue v2)) ∧
  ∃ t2, current_table (env s2) = Some t2 ∧
        count_key key t2 = 1%nat ∧
        sorted_table t2 ∧
        ∀ k, k ≠ key → lookup_record k t2 = lookup_record k t.
Proof.
  intros Ht Hsorted H1 H2.
  destruct (lazy_settle_fulfilled s (MSet key v1) _ _ _ hs1 s1 _ eq_refl H1)
    as (t0 & Ht0 & Ht1 & _).
  assert (t0 = t) as -> by congruence.
  destruct (lazy_settle_fulfilled s1 (MSet key v2) _ _ _ hs2 s2 _ eq_refl H2)
    as (t1 & Ht1' & Ht2 & _).
  cbn [exec_request fst] in Ht1.
  assert (t1 = put_record v1 key t) as -> by congruence.
  cbn [exec_request fst] in Ht2. split.
  - pose proof (lazy_settle_quiet s2 (MGet key) _ _ _ _ eq_refl Ht2) as Hg.
    cbn [exec_request snd as_value] in Hg.
    by rewrite lookup_put_same in Hg.
  - eexists. split; [exact Ht2|]. split_and!.
    + by apply count_key_put, sorted_put.
    + by do 2 apply sorted_put.
    + intros k Hk. by rewrite !lookup_put_other.
Qed.

Lemma lazy_set_overwrites_witness :
  current_table (env sample) = Some [] ∧
  sorted_table [] ∧
  settle sample (MSet (KStr "a") (Num 1)) [] =
    (sample_a, Some (Fulfilled RetVoid)) ∧
  settle sample_a (MSet (KStr "a") (Num 2)) [] =
    (sample_a2, Some (Fulfilled RetVoid)) ∧
  (settle sample_a2 (MGet (KStr "a")) []).2 =
    Some (Fulfilled (RetValue (Num 2))).
Proof.
  assert (current_table (env sample) = Some []) as Ht by (by vm_compute).
  assert (settle sample (MSet (KStr "a") (Num 1)) [] =
            (sample_a, Some (Fulfilled RetVoid))) as H1 by (by vm_compute).
  assert (settle sample_a (MSet (KStr "a") (Num 2)) [] =
            (sample_a2, Some (Fulfilled RetVoid))) as H2 by (by vm_compute).
  destruct (lazy_set_overwrites sample (KStr "a") (Num 1) (Num 2) [] []
              sample_a sample_a2 [] Ht sorted_nil H1 H2) as [Hg _].
  split_and!; [done|apply sorted_nil|done|done|done].
Defined.

(** C7. After [set(key, val)] and [delete(key)], [get(key)] resolves to
    [undefined] and [has(key)] to [false]; and [delete] of a key that has
    no record succeeds and leaves the table as it was. *)
Theorem lazy_delete_removes s key val hs1 hs2 s1 s2 s0 t0 :
  settle s (MSet key val) hs1 = (s1, Some (Fulfilled RetVoid)) →
  settle s1 (MDelete key) hs2 = (s2, Some (Fulfilled RetVoid)) →
  current_table (env s0) = Some t0 →
  lookup_record key t0 = None →
  (settle s2 (MGet key) []).2 = Some (Fulfilled (RetValue Undefined)) ∧
  (settle s2 (MHas key) []).2 = Some (Fulfilled (RetBool false)) ∧
  (settle s0 (MDelete key) []).2 = Some (Fulfilled RetVoid) ∧
  current_table (env (settle s0 (MDelete key) []).1) = Some t0.
Proof.
  intros H1 H2 Ht0 Hk.
  destruct (lazy_settle_fulfilled s1 (MDelete key) _ _ _ hs2 s2 _ eq_refl H2)
    as (t1 & _ & Ht2 & _).
  cbn [exec_request fst] in Ht2. split_and!.
  - pose proof (lazy_settle_quiet s2 (MGet key) _ _ _ _ eq_refl Ht2) as Hg.
    cbn [exec_request snd as_value] in Hg.
    by rewrite lookup_delete_same in Hg.
  - pose proof (lazy_settle_quiet s2 (MHas key) _ _ _ _ eq_refl Ht2) as Hh.
    cbn beta in Hh. rewrite has_result, lookup_delete_same in Hh.
    rewrite bool_decide_false in Hh; [done|]. by intros [? ?].
  - exact (lazy_settle_quiet s0 (MDelete key) _ _ _ _ eq_refl Ht0).
  - destruct (settle s0 (MDelete key) []) as [s0' o] eqn:Hd.
    pose proof (lazy_settle_quiet s0 (MDelete key) _ _ _ _ eq_refl Ht0) as Ho.
    rewrite Hd in Ho. cbn [snd] in Ho. subst o.
    destruct (lazy_settle_fulfilled s0 (MDelete key) _ _ _ [] s0' _ eq_refl Hd)
      as (t & Ht & Ht' & _).
    assert (t = t0) as -> by congruence.
    cbn [exec_request fst] in Ht'. by rewrite delete_absent in Ht'.
Qed.

Lemma lazy_delete_removes_witness :
  settle sample (MSet (KStr "a") (Num 1)) [] =
    (sample_a, Some (Fulfilled RetVoid)) ∧
  settle sample_a (MDelete (KStr "a")) [] =
    (sample_gone, Some (Fulfilled RetVoid)) ∧
  current_table (env sample) = Some [] ∧
  lookup_record (KStr "a") [] = None ∧
  (settle sample_gone (MGet (KStr "a")) []).2 =
    Some (Fulfilled (RetValue Undefined)) ∧
  (settle sample_gone (MHas (KStr "a")) []).2 =
    Some (Fulfilled (RetBool false)) ∧
  (settle sample (MDelete (KStr "a")) []).2 = Some (Fulfilled RetVoid).
Proof.
  assert (settle sample (MSet (KStr "a") (Num 1)) [] =
            (sample_a, Some (Fulfilled RetVoid))) as H1 by (by vm_compute).
  assert (settle sample_a (MDelete (KStr "a")) [] =
            (sample_gone, Some (Fulfilled RetVoid))) as H2 by (by vm_compute).
  assert (current_table (env sample) = Some []) as Ht by (by vm_compute).
  assert (lookup_record (KStr "a") [] = None) as Hk by reflexivity.
  destruct (lazy_delete_removes sample (KStr "a") (Num 1) [] [] sample_a
              sample_gone sample [] H1 H2 Ht Hk) as (Hg & Hh & Hd & _).
  split_and!; done.
Defined.

(** C10. [get] cannot tell a stored [undefined] from no record, [has]
    can: after [set(key, undefined)] has succeeded, [get(key)] resolves
    to the very value it resolves to for a key without record, while
    [has(key)] resolves to [true] and not to [false]. *)
Theorem lazy_undefined_ambiguous s key hs s' s0 t0 :
  settle s (MSet key Undefined) hs = (s', Some (Fulfilled RetVoid)) →
  current_table (env s0) = Some t0 →
  lookup_record key t0 = None →
  (settle s' (MGet key) []).2 = Some (Fulfilled (RetValue Undefined)) ∧
  (settle s0 (MGet key) []).2 = Some (Fulfilled (RetValue Undefined)) ∧
  (settle s' (MHas key) []).2 = Some (Fulfilled (RetBool true)) ∧
  (settle s0 (MHas key) []).2 = Some (Fulfilled (RetBool false)).
Proof.
  intros Hset Ht0 Hk.
  destruct (lazy_settle_fulfilled s (MSet key Undefined) _ _ _ hs s' _
              eq_refl Hset) as (t & _ & Ht' & _).
  cbn [exec_request fst] in Ht'. split_and!.
  - pose proof (lazy_settle_quiet s' (MGet key) _ _ _ _ eq_refl Ht') as Hg.
    cbn [exec_request snd as_value] in Hg.
    by rewrite lookup_put_same in Hg.
  - pose proof (lazy_settle_quiet s0 (MGet key) _ _ _ _ eq_refl Ht0) as Hg.
    cbn [exec_request snd as_value] in Hg. by rewrite Hk in Hg.
  - pose proof (lazy_settle_quiet s' (MHas key) _ _ _ _ eq_refl Ht') as Hh.
    cbn beta in Hh. rewrite has_result, lookup_put_same in Hh.
    by rewrite bool_decide_true in Hh.
  - pose proof (lazy_settle_quiet s0 (MHas key) _ _ _ _ eq_refl Ht0) as Hh.
    cbn beta in Hh. rewrite has_result, Hk in Hh.
    rewrite bool_decide_false in Hh; [done|]. by intros [? ?].
Qed.

Lemma lazy_undefined_ambiguous_witness :
  settle sample (MSet (KStr "a") Undefined) [] =
    (sample_undefined, Some (Fulfilled RetVoid)) ∧
  current_table (env sample) = Some [] ∧
  lookup_record (KStr "a") [] = None ∧
  (settle sample_undefined (MGet (KStr "a")) []).2 =
    (settle sample (MGet (KStr "a")) []).2 ∧
  (settle sample_undefined (MHas (KStr "a")) []).2 =
    Some (Fulfilled (RetBool true)) ∧
  (settle sample (MHas (KStr "a")) []).2 = Some (Fulfilled (RetBool false)).
Proof.
  assert (settle sample (MSet (KStr "a") Undefined) [] =
            (sample_undefined, Some (Fulfilled RetVoid))) as H1
    by (by vm_compute).
  assert (current_table (env sample) = Some []) as Ht by (by vm_compute).
  assert (lookup_record (KStr "a") [] = None) as Hk by reflexivity.
  destruct (lazy_undefined_ambiguous sample (KStr "a") [] sample_undefined
              sample [] H1 Ht Hk) as (Hg & Hg0 & Hh & Hh0).
  rewrite Hg, Hg0. split_and!; done.
Defined.

(** C8. [update(key, action)] is [get(key)], then [action] on the value
    read, then [set(key, next)] on what is left of the host's
    behaviour.  When the read is rejected, or [action] throws or
    rejects, [update] is rejected with that error, no write is asked of
    the host and the table is as it was. *)
Theorem lazy_update_is_get_then_set s key action hs :
  let g := settle s (MGet key) hs in
  let u := settle s (MUpdate key action) hs in
  match g.2 with
  | Some (Fulfilled (RetValue value)) =>
      match action value with
      | inl next =>
          let w := settle g.1 (MSet key next)
                     (drop (completions (env s)) hs) in
          env u.1 = env w.1 ∧ u.2 = w.2
      | inr err =>
          env u.1 = env g.1 ∧ u.2 = Some (Rejected err) ∧
          current_table (env u.1) = current_table (env s) ∧
          puts (trace (env u.1)) = puts (trace (env s))
      end
  | Some (Rejected err) =>
      env u.1 = env g.1 ∧ u.2 = Some (Rejected err) ∧
      current_table (env u.1) = current_table (env s) ∧
      puts (trace (env u.1)) = puts (trace (env s))
  | _ => False
  end.
Proof.
  intros g u.
  destruct (lazy_settle_update s key action hs) as [Hue Huo].
  destruct (lazy_settle_once s (MGet key) _ _ _ hs eq_refl) as [Hge Hgo].
  fold u in Hue, Huo. fold g in Hge, Hgo.
  rewrite <- (lazy_once_map RetValue readonly (ReqGet key) as_value)
    in Hge, Hgo.
  pose proof (lazy_once_read_puts readonly (ReqGet key) as_value (env s) hs
                eq_refl) as Hputs.
  unfold update_once in Hue, Huo.
  destruct (once readonly (ReqGet key) as_value (env s) hs)
    as [[[e1 hs1] [value|err]] n] eqn:Hg; cbn [map_result fst snd] in *.
  - rewrite Hgo.
    destruct (lazy_once_fulfilled _ _ _ _ _ _ _ _ _ Hg)
      as (t & Ht & Ht1 & _ & Hhs1).
    destruct (action value) as [next|err].
    + cbn zeta.
      destruct (lazy_settle_once g.1 (MSet key next) _ _ _
                  (drop (completions (env s)) hs) eq_refl) as [Hwe Hwo].
      rewrite Hge, <- Hhs1 in Hwe, Hwo. rewrite <- Hhs1, Hwe, Hwo.
      destruct (once readwrite (ReqPut next key) (λ _ : reqresult, RetVoid)
                  e1 hs1) as [[[e2 hs2] [x|err]] m] eqn:Hw;
        cbn [fst snd] in *; [|done].
      split; [done|]. rewrite Huo.
      by destruct (lazy_once_fulfilled _ _ _ _ _ _ _ _ _ Hw)
        as (? & _ & _ & -> & _).
    + cbn [fst snd] in *. rewrite Hue, Hge. split_and!; [done..| |done].
      by rewrite Ht1, Ht.
  - rewrite Hgo. rewrite Hue, Hge. split_and!; [done..| |done].
    by destruct (lazy_once_rejected _ _ _ _ _ _ _ _ _ Hg) as [_ ->].
Qed.
End LazyClaims.

(** ** Opening the connection *)

Section MachineRuns.
Context {H method : Type} (invoke : method → prog H retval).

Lemma step_call (s : Sys) m :
  step invoke s (Call m) =
  {| env := (run_sync (invoke m) (env s)).1;
     tasks := tasks s ++ [(run_sync (invoke m) (env s)).2] |}.
Proof. cbn [step]. by destruct (run_sync (invoke m) (env s)). Qed.

Lemma run_cons (s : Sys) a sched :
  run invoke s (a :: sched) = run invoke (step invoke s a) sched.
Proof. done. Qed.

Lemma run_nil (s : Sys) : run invoke s [] = s.
Proof. done. Qed.

Lemma run_app (s : Sys) l1 l2 :
  run invoke s (l1 ++ l2) = run invoke (run invoke s l1) l2.
Proof. apply fold_left_app. Qed.

Lemma step_open_done (s : Sys) promise req failure :
  opens (env s) !! promise = Some req → or_status req = Pending →
  step invoke s (OpenDone promise failure) =
  complete_open promise req failure s.
Proof. intros Hreq Hst. cbn [step]. by rewrite Hreq, Hst. Qed.

Lemma run_sync_quiet {A} (p : prog H A) e :
  quiet p →
  opens (run_sync p e).1 = opens e ∧
  this (run_sync p e).1 = this e ∧
  quiet_state (run_sync p e).2.
Proof.
  revert e. induction p as [a|err|k IH|h p IH|name version store k IH
    |promise k IH|p IH|c store mode k IH|os r k IH]; intros e;
    cbn [quiet run_sync]; intros Hp; try done.
  - by apply IH.
  - destruct (or_status <$> opens e !! promise) as [[|c|err]|]; cbn; auto.
  - destruct (find_table (world e) (conn_name c) store); [|done].
    by apply (IH _ (log (EvTransaction (conn_name c) store mode) e)).
  - by destruct (os_mode os), (mutating r).
Qed.

(** While the bodies of the methods are quiet, and so are the calls in
    flight, the machine issues no open request and leaves [this] as it
    is. *)
Lemma step_quiet (s : Sys) a :
  (∀ m, quiet (invoke m)) →
  Forall quiet_state (tasks s) →
  open_count (step invoke s a) = open_count s ∧
  this (env (step invoke s a)) = this (env s) ∧
  Forall quiet_state (tasks (step invoke s a)).
Proof.
  intros Hinv Htasks. unfold open_count.
  destruct a as [m|promise failure|t|t failure]; cbn [step].
  - pose proof (run_sync_quiet (invoke m) (env s) (Hinv m)) as (Hn & Hthis & Hst).
    destruct (run_sync (invoke m) (env s)) as [e st]. cbn in *.
    split_and!; [by rewrite Hn|done|].
    apply Forall_app. split; [done|]. by constructor.
  - destruct (opens (env s) !! promise) as [req|] eqn:Hreq; [|done].
    destruct (or_status req); [|done..].
    unfold complete_open. destruct failure as [err|]; cbn.
    + rewrite length_insert. split_and!; [done..|].
      apply Forall_fmap. eapply Forall_impl; [done|].
      intros [p|r k|os r k|o] Hst; cbn; try done.
      by destruct (decide (r = promise)).
    + rewrite length_insert. split_and!; [done..|].
      apply Forall_fmap. eapply Forall_impl; [done|].
      intros [p|r k|os r k|o] Hst; cbn; try done.
      destruct (decide (r = promise)); [apply Hst|done].
  - destruct (tasks s !! t) as [[p|r k|os r k|o]|] eqn:Ht; try done.
    pose proof (Forall_lookup_1 _ _ _ _ Htasks Ht) as Hp.
    pose proof (run_sync_quiet p (env s) Hp) as (Hn & Hthis & Hst).
    destruct (run_sync p (env s)) as [e st]. cbn in *.
    split_and!; [by rewrite Hn|done|]. by apply Forall_insert.
  - destruct (tasks s !! t) as [[p|r k|os r k|o]|] eqn:Ht; try done.
    pose proof (Forall_lookup_1 _ _ _ _ Htasks Ht) as Hk.
    unfold complete_request. destruct failure as [err|]; cbn.
    { split_and!; [done..|]. by apply Forall_insert. }
    destruct (find_table (world (env s)) (conn_name (os_conn os)) (os_name os))
      as [tb|]; cbn.
    + destruct (exec_request r tb) as [tb' res]. cbn.
      split_and!; [done..|]. apply Forall_insert; [done|]. apply Hk.
    + split_and!; [done..|]. by apply Forall_insert.
Qed.

Lemma run_quiet (s : Sys) sched :
  (∀ m, quiet (invoke m)) →
  Forall quiet_state (tasks s) →
  open_count (run invoke s sched) = open_count s ∧
  this (env (run invoke s sched)) = this (env s) ∧
  Forall quiet_state (tasks (run invoke s sched)).
Proof.
  intros Hinv. revert s. induction sched as [|a sched IH]; intros s Hs; [done|].
  rewrite run_cons. destruct (step_quiet s a Hinv Hs) as (Hn & Hthis & Hst).
  destruct (IH _ Hst) as (Hn' & Hthis' & Hst').
  split_and!; [by rewrite Hn'|by rewrite Hthis'|done].
Qed.

(** A schedule without calls leaves a machine alone that has no call in
    flight and no open request pending. *)
Lemma run_idle (s : Sys) sched :
  tasks s = [] →
  Forall (fun req => or_status req ≠ Pending) (opens (env s)) →
  run invoke s (host_only sched) = s.
Proof.
  intros Ht Ho. induction sched as [|a sched IH]; [done|].
  unfold host_only. cbn [List.filter].
  destruct (is_call a) eqn:Ha; cbn [negb]; [apply IH|].
  cbn [run fold_left]. rewrite step_idle; [apply IH|done| |done].
  intros m ->. done.
Qed.
End MachineRuns.

Section LazyOpen.
Import Lazy.
Implicit Types (s : Sys (H := IDBKV)) (e : Env (H := IDBKV))
  (hs : list (option error)).

(** With nothing cached, the synchronous part of any call issues an open
    request and suspends on it. *)
Lemma lazy_call_fresh m e :
  instance (this e) = None →
  ∃ k, run_sync (invoke m) e =
       (issue_open (db (this e)) 1 (store (this e)) e,
        OnOpen (length (opens e)) k).
Proof.
  intros Hi.
  destruct m; cbn [invoke]; unfold update; unfold get, set, delete, clear, keys,
    values, has, access, resolve, await, fmap, prog_fmap, mbind, prog_bind;
    cbn [bind run_sync]; rewrite Hi; cbn [bind run_sync];
    rewrite lazy_opens_fresh; cbn [fmap option_fmap option_map or_status
      fresh_request]; eauto.
Qed.

(** With the connection cached, the synchronous part of a call issues
    nothing. *)
Lemma lazy_call_cached m e c :
  instance (this e) = Some c → (run_sync (invoke m) e).1 = e.
Proof.
  intros Hi.
  destruct m; cbn [invoke]; unfold update; unfold get, set, delete, clear, keys,
    values, has, access, resolve, await, fmap, prog_fmap, mbind, prog_bind;
    cbn [bind run_sync]; by rewrite Hi.
Qed.

Lemma lazy_step_call_fresh s m :
  instance (this (env s)) = None →
  env (step s (Call m)) =
  issue_open (db (this (env s))) 1 (store (this (env s))) (env s).
Proof.
  intros Hi. unfold step. rewrite step_call.
  destruct (lazy_call_fresh m (env s) Hi) as [k ->]. done.
Qed.

(** C1. Constructing the handle does no I/O: nothing is logged, no open
    request exists, the databases of the host are untouched and only the
    two names are recorded.  As long as no public method is called, the
    host and the microtask queue find nothing to do.  The first call of
    any public method issues the open request. *)
Theorem lazy_constructor_no_io w name st sched m :
  let s := init w name st in
  trace (env s) = [] ∧
  opens (env s) = [] ∧
  world (env s) = w ∧
  tasks s = [] ∧
  this (env s) = {| db := name; store := default "kv" st; instance := None |} ∧
  run s (host_only sched) = s ∧
  trace (env (step s (Call m))) = [EvOpen name 1] ∧
  open_count (step s (Call m)) = 1%nat.
Proof.
  intros s. split_and!; try reflexivity.
  - by apply run_idle.
  - by rewrite lazy_step_call_fresh.
  - unfold open_count. by rewrite lazy_step_call_fresh.
Qed.

(** X11. Calls made back to back while nothing is cached each issue an
    open request of their own: as many open requests as calls. *)
Lemma lazy_calls_open_each s ms :
  instance (this (env s)) = None →
  open_count (run s (Call <$> ms)) = (open_count s + length ms)%nat ∧
  instance (this (env (run s (Call <$> ms)))) = None.
Proof.
  revert s. induction ms as [|m ms IH]; intros s Hi.
  { cbn. split; [lia|done]. }
  cbn [fmap list_fmap]. unfold run. rewrite run_cons.
  pose proof (lazy_step_call_fresh s m Hi) as Hstep.
  destruct (IH (step s (Call m))) as [Hn Hi'].
  { by rewrite Hstep. }
  unfold run, step in Hn, Hi'. rewrite Hn, Hi'. split; [|done].
  unfold open_count. unfold step in Hstep. rewrite Hstep. cbn.
  rewrite length_app. cbn. lia.
Qed.

(** C2, on the lazy handle: two [get] started one after the other on a
    new handle issue two open requests, and each waits for its own. *)
Theorem lazy_two_calls_two_opens :
  let s := run sample [Call (MGet (KStr "a")); Call (MGet (KStr "b"))] in
  open_count s = 2%nat ∧
  trace (env s) = [EvOpen "db" 1; EvOpen "db" 1] ∧
  match tasks s with
  | [OnOpen p1 _; OnOpen p2 _] => p1 = 0%nat ∧ p2 = 1%nat
  | _ => False
  end.
Proof. by vm_compute. Qed.
End LazyOpen.

(** ** A failed open request *)

Section LazyFailure.
Import Lazy.
Implicit Types (s : Sys (H := IDBKV)) (e : Env (H := IDBKV))
  (hs : list (option error)).

Lemma lazy_plan_update m : plan m = None → ∃ key action, m = MUpdate key action.
Proof. destruct m; try done. eauto. Qed.

(** Every call that is driven on its own ends as [sequential] says. *)
Lemma lazy_settle_sequential s m hs :
  env (settle s m hs).1 = (sequential m (env s) hs).1.1.1 ∧
  (settle s m hs).2 = Some (sequential m (env s) hs).1.2.
Proof.
  unfold sequential. destruct (plan m) as [[[mode r] f]|] eqn:Hplan.
  - by apply lazy_settle_once.
  - destruct (lazy_plan_update m Hplan) as (key & action & ->).
    apply lazy_settle_update.
Qed.

Lemma lazy_once_fulfilled_instance {A} mode r (f : reqresult → A)
    e hs e' hs' x n :
  once mode r f e hs = (e', hs', Fulfilled x, n) →
  instance (this e') = Some (default (connection e) (instance (this e))).
Proof.
  intros Honce. pose proof (lazy_once_instance mode r f e hs) as Hi.
  rewrite Honce in Hi. cbn [fst] in Hi. rewrite Hi.
  unfold once in Honce.
  destruct (instance (this e)) as [c|]; [done|].
  by destruct (mjoin (head hs)).
Qed.

Lemma lazy_once_refused {A} mode r (f : reqresult → A) e hs err :
  instance (this e) = None → mjoin (head hs) = Some err →
  once mode r f e hs = (refuse err e, tail hs, Rejected err, 1%nat).
Proof. intros Hi Hhs. unfold once. by rewrite Hi, Hhs. Qed.

Lemma lazy_sequential_refused m e hs err :
  instance (this e) = None → mjoin (head hs) = Some err →
  sequential m e hs = (refuse err e, tail hs, Rejected err, 1%nat).
Proof.
  intros Hi Hhs. unfold sequential.
  destruct (plan m) as [[[mode r] f]|] eqn:Hplan.
  - by apply lazy_once_refused.
  - destruct (lazy_plan_update m Hplan) as (key & action & ->).
    unfold update_once. by rewrite (lazy_once_refused _ _ _ _ _ _ Hi Hhs).
Qed.

(** A call issues an open request exactly when no connection is
    cached, and then exactly one. *)
Lemma lazy_sequential_opens m e hs :
  length (opens (sequential m e hs).1.1.1) =
  match instance (this e) with
  | Some _ => length (opens e)
  | None => S (length (opens e))
  end.
Proof.
  unfold sequential. destruct (plan m) as [[[mode r] f]|] eqn:Hplan.
  - apply lazy_once_opens.
  - destruct (lazy_plan_update m Hplan) as (key & action & ->).
    unfold update_once.
    pose proof (lazy_once_opens readonly (ReqGet key) as_value e hs) as Hg.
    destruct (once readonly (ReqGet key) as_value e hs)
      as [[[e1 hs1] [value|err]] n] eqn:Honce; cbn [fst] in Hg; [|done].
    destruct (action value) as [next|err]; [|done].
    pose proof (lazy_once_opens readwrite (ReqPut next key)
                  (fun _ => RetVoid) e1 hs1) as Hs.
    rewrite (lazy_once_fulfilled_instance _ _ _ _ _ _ _ _ _ Honce) in Hs.
    destruct (once readwrite (ReqPut next key) (λ _ : reqresult, RetVoid)
                e1 hs1) as [[[e2 hs2] [x|err]] k]; cbn [fst] in *;
      by rewrite Hs.
Qed.

(** After a call the connection is cached, unless nothing was cached
    and the open request of the call failed. *)
Lemma lazy_sequential_instance m e hs :
  instance (this (sequential m e hs).1.1.1) =
  match instance (this e), mjoin (head hs) with
  | Some c, _ => Some c
  | None, Some _ => None
  | None, None => Some (connection e)
  end.
Proof.
  unfold sequential. destruct (plan m) as [[[mode r] f]|] eqn:Hplan.
  - apply lazy_once_instance.
  - destruct (lazy_plan_update m Hplan) as (key & action & ->).
    unfold update_once.
    pose proof (lazy_once_instance readonly (ReqGet key) as_value e hs) as Hg.
    destruct (once readonly (ReqGet key) as_value e hs)
      as [[[e1 hs1] [value|err]] n] eqn:Honce; cbn [fst] in Hg; [|done].
    destruct (action value) as [next|err]; [|done].
    pose proof (lazy_once_instance readwrite (ReqPut next key)
                  (fun _ => RetVoid) e1 hs1) as Hs.
    pose proof (lazy_once_fulfilled_instance _ _ _ _ _ _ _ _ _ Honce) as Hi1.
    rewrite Hi1 in Hs.
    destruct (once readwrite (ReqPut next key) (λ _ : reqresult, RetVoid)
                e1 hs1) as [[[e2 hs2] [x|err]] k]; cbn [fst] in *;
      by rewrite Hs, <- Hi1, Hg.
Qed.

(** C3, as the lazy handle has it.  When the open request of a call
    fails, that call is rejected with the error of the request and no
    connection is cached.  The next call therefore issues an open
    request of its own: it is rejected with the error of that request if
    it fails too, and caches the connection if it succeeds. *)
Theorem lazy_failed_open_not_cached s m hs err m' hs' :
  instance (this (env s)) = None →
  mjoin (head hs) = Some err →
  let s1 := (settle s m hs).1 in
  let s2 := (settle s1 m' hs').1 in
  (settle s m hs).2 = Some (Rejected err) ∧
  instance (this (env s1)) = None ∧
  open_count s1 = S (open_count s) ∧
  open_count s2 = S (open_count s1) ∧
  match mjoin (head hs') with
  | Some err' =>
      (settle s1 m' hs').2 = Some (Rejected err') ∧
      instance (this (env s2)) = None
  | None => instance (this (env s2)) = Some (connection (env s))
  end.
Proof.
  intros Hi Hhs s1 s2.
  destruct (lazy_settle_sequential s m hs) as [He Ho].
  rewrite (lazy_sequential_refused m _ _ _ Hi Hhs) in He, Ho.
  cbn [fst snd] in He, Ho. fold s1 in He.
  assert (instance (this (env s1)) = None) as Hi1 by (by rewrite He).
  destruct (lazy_settle_sequential s1 m' hs') as [He' Ho']. fold s2 in He'.
  split_and!; [done|done| | |].
  - unfold open_count. rewrite He. cbn. rewrite length_insert, length_app.
    cbn. lia.
  - unfold open_count. rewrite He', lazy_sequential_opens. by rewrite Hi1.
  - pose proof (lazy_sequential_instance m' (env s1) hs') as Hi2.
    rewrite <- He', Hi1 in Hi2.
    destruct (mjoin (head hs')) as [err'|] eqn:Hhs'.
    + split; [|done].
      by rewrite Ho', (lazy_sequential_refused m' _ _ _ Hi1 Hhs').
    + rewrite Hi2, He. done.
Qed.

Lemma lazy_failed_open_not_cached_witness :
  instance (this (env sample)) = None ∧
  mjoin (head [Some (DOMException "UnknownError")]) =
    Some (DOMException "UnknownError") ∧
  (settle sample (MGet (KStr "a")) [Some (DOMException "UnknownError")]).2 =
    Some (Rejected (DOMException "UnknownError")) ∧
  open_count
    (settle sample (MGet (KStr "a")) [Some (DOMException "UnknownError")]).1 =
    1%nat.
Proof.
  destruct (lazy_failed_open_not_cached sample (MGet (KStr "a"))
              [Some (DOMException "UnknownError")]
              (DOMException "UnknownError") (MGet (KStr "a")) []
              eq_refl eq_refl) as (Ho & _ & Hn & _).
  split_and!; [reflexivity|reflexivity|exact Ho|exact Hn].
Defined.

(** C3 fails as the spec words it: on a new handle a [get] whose open
    request fails is rejected, and the next [get] issues a second open
    request and resolves. *)
Lemma lazy_failed_open_is_retried :
  let r1 := settle sample (MGet (KStr "a"))
              [Some (DOMException "UnknownError")] in
  let r2 := settle r1.1 (MGet (KStr "a")) [] in
  r1.2 = Some (Rejected (DOMException "UnknownError")) ∧
  open_count r1.1 = 1%nat ∧
  r2.2 = Some (Fulfilled (RetValue Undefined)) ∧
  r2.2 ≠ r1.2 ∧
  open_count r2.1 = 2%nat.
Proof. vm_compute. split_and!; done. Qed.
End LazyFailure.

(** ** The eager handle *)

Section EagerFacts.
Import Eager.
Implicit Types (s : Sys (H := IDBKV)) (e : Env (H := IDBKV))
  (hs : list (option error)).

Lemma eager_invoke_quiet m : quiet (invoke m).
Proof.
  destruct m; cbn [invoke]; unfold get, set, delete, clear, keys, values,
    access, await, fmap, prog_fmap, mbind, prog_bind; cbn [bind quiet];
    intros h; destruct (promise h); cbn [bind quiet]; done.
Qed.

(** The constructor issues the open request, and keeps the promise. *)
Lemma eager_constructor_opens w name st :
  let s := init w name st in
  trace (env s) = [EvOpen name 1] ∧
  opens (env s) = [{| or_name := name; or_version := 1;
                      or_store := default "kv" st; or_status := Pending |}] ∧
  this (env s) = {| db := name; store := default "kv" st; promise := Some 0%nat |} ∧
  world (env s) = w ∧
  tasks s = [].
Proof. done. Qed.

(** On the eager handle, whatever is called and whenever, the open request
    of the constructor is the only one. *)
Lemma eager_single_open w name st sched :
  open_count (run (init w name st) sched) = 1%nat.
Proof.
  destruct (run_quiet invoke (init w name st) sched eager_invoke_quiet)
    as [Hn _]; [by constructor|].
  unfold run. by rewrite Hn.
Qed.

(** A call made while the open request of the constructor is pending
    waits for that request. *)
Lemma eager_call_pending m e p :
  promise (this e) = Some p →
  or_status <$> opens e !! p = Some Pending →
  ∃ k, run_sync (invoke m) e = (e, OnOpen p k).
Proof.
  intros Hp Ho.
  destruct m; cbn [invoke]; unfold get, set, delete, clear, keys, values,
    access, await, fmap, prog_fmap, mbind, prog_bind; cbn [bind run_sync];
    rewrite Hp; cbn [bind run_sync]; rewrite Ho; eauto.
Qed.

(** A call made after that request has failed is rejected at once with
    the error of the request. *)
Lemma eager_call_failed m e p err :
  promise (this e) = Some p →
  or_status <$> opens e !! p = Some (Failed err) →
  run_sync (invoke m) e = (e, Settled (Rejected err)).
Proof.
  intros Hp Ho.
  destruct m; cbn [invoke]; unfold get, set, delete, clear, keys, values,
    access, await, fmap, prog_fmap, mbind, prog_bind; cbn [bind run_sync];
    rewrite Hp; cbn [bind run_sync]; by rewrite Ho.
Qed.

(** X14. On the eager handle the calls made before the open request
    completes all wait for that one request, and its failure rejects
    every one of them. *)
Lemma eager_calls_share w name st ms err :
  let s := run (init w name st) ((Call <$> ms) ++ [OpenDone 0 (Some err)]) in
  open_count s = 1%nat ∧
  tasks s = (fun _ => Settled (Rejected err)) <$> ms.
Proof.
  intros s. split; [apply eager_single_open|].
  subst s. unfold run. rewrite run_app.
  assert (Hcalls : ∀ l (s0 : Sys (H := IDBKV)),
    promise (this (env s0)) = Some 0%nat →
    or_status <$> opens (env s0) !! 0%nat = Some Pending →
    Forall (fun st => ∃ k, st = OnOpen 0 k) (tasks s0) →
    env (run s0 (Call <$> l)) = env s0 ∧
    length (tasks (run s0 (Call <$> l))) = (length (tasks s0) + length l)%nat ∧
    Forall (fun st => ∃ k, st = OnOpen 0 k) (tasks (run s0 (Call <$> l)))).
  { induction l as [|m l IH]; intros s0 Hp Ho Ht.
    { cbn. split_and!; [done|lia|done]. }
    cbn [fmap list_fmap]. unfold run. rewrite run_cons, step_call.
    destruct (eager_call_pending m (env s0) 0 Hp Ho) as [k Hk].
    rewrite Hk. cbn [fst snd].
    destruct (IH {| env := env s0; tasks := tasks s0 ++ [OnOpen 0 k] |})
      as (He & Hl & Hf); [done|done| |].
    { apply Forall_app. split; [done|]. constructor; [eauto|constructor]. }
    unfold run in He, Hl, Hf. cbn [env tasks] in He, Hl, Hf.
    split_and!; [done| |done].
    rewrite Hl, length_app. cbn. lia. }
  destruct (Hcalls ms (init w name st)) as (He & Hl & Hf);
    [done|done|constructor|].
  fold (run (init w name st) (Call <$> ms)).
  set (s1 := run (init w name st) (Call <$> ms)) in *.
  rewrite run_cons.
  rewrite (step_open_done invoke s1 0
             {| or_name := name; or_version := 1;
                or_store := default "kv" st; or_status := Pending |});
    [|by rewrite He|done].
  rewrite run_nil. unfold complete_open. cbn [tasks].
  cbn [tasks init length plus] in Hl.
  clear He. revert Hl Hf. generalize (tasks s1). clear s1.
  intros l. revert ms. induction l as [|x l IH]; intros [|m ms] Hl Hf;
    try done.
  apply Forall_cons in Hf as [[k ->] Hf].
  cbn [fmap list_fmap]. rewrite resume_open_same. f_equal.
  apply IH; [cbn in Hl; lia|done].
Qed.
End EagerFacts.

(** * Further properties *)

(** ** Tables *)

Lemma put_put_same v1 v2 k t :
  put_record v2 k (put_record v1 k t) = put_record v2 k t.
Proof.
  induction t as [|[k' v'] t IH]; simpl.
  - by rewrite key_compare_refl.
  - destruct (key_compare k k') eqn:Hc; simpl.
    + by rewrite key_compare_refl.
    + by rewrite key_compare_refl.
    + by rewrite Hc, IH.
Qed.

Lemma sorted_world_upgrade w name st :
  sorted_world w → sorted_world (upgrade w name st).
Proof.
  intros Hw. unfold upgrade. destruct (w !! name) eqn:Hn; [done|].
  intros name' d st' t. destruct (decide (name = name')) as [<-|Hne].
  - rewrite lookup_insert_eq. intros [= <-].
    destruct (decide (st = st')) as [<-|Hne].
    + rewrite lookup_singleton_eq. intros [= <-]. apply sorted_nil.
    + by rewrite lookup_singleton_ne.
  - rewrite lookup_insert_ne by done. apply Hw.
Qed.

Lemma sorted_world_write w name st t :
  sorted_world w → sorted_table t → sorted_world (write_table w name st t).
Proof.
  intros Hw Ht. unfold write_table. destruct (w !! name) as [d|] eqn:Hn; [|done].
  intros name' d' st' t'. destruct (decide (name = name')) as [<-|Hne].
  - rewrite lookup_insert_eq. intros [= <-].
    destruct (decide (st = st')) as [<-|Hne].
    + rewrite lookup_insert_eq. by intros [= <-].
    + rewrite lookup_insert_ne by done. intros Hd. by eapply Hw.
  - rewrite lookup_insert_ne by done. apply Hw.
Qed.

Lemma sorted_world_find w name st t :
  sorted_world w → find_table w name st = Some t → sorted_table t.
Proof.
  unfold find_table. intros Hw. destruct (w !! name) as [d|] eqn:Hn; [|done].
  cbn. intros Hd. by eapply Hw.
Qed.

Section Invariants.
Context {H method : Type} (invoke : method → prog H retval).

Lemma run_sync_world {A} (p : prog H A) e : world (run_sync p e).1 = world e.
Proof.
  revert e. induction p as [a|err|k IH|h p IH|name version store k IH
    |promise k IH|p IH|c store mode k IH|os r k IH]; intros e;
    cbn [run_sync]; try done.
  - by rewrite IH.
  - by rewrite IH.
  - by destruct (or_status <$> opens e !! promise) as [[|c|err]|].
  - destruct (find_table (world e) (conn_name c) store); [|done].
    by rewrite IH.
  - by destruct (os_mode os), (mutating r).
Qed.

(** Whatever the calls and the schedule, the tables of the host stay in
    key order. *)
Lemma step_sorted_world (s : Sys) a :
  sorted_world (world (env s)) →
  sorted_world (world (env (step invoke s a))).
Proof.
  intros Hw. destruct a as [m|promise failure|t|t failure]; cbn [step].
  - pose proof (run_sync_world (invoke m) (env s)) as Hrun.
    destruct (run_sync (invoke m) (env s)) as [e st]. cbn in *. by rewrite Hrun.
  - destruct (opens (env s) !! promise) as [req|]; [|done].
    destruct (or_status req); [|done..].
    unfold complete_open. destruct failure; cbn; [done|].
    by apply sorted_world_upgrade.
  - destruct (tasks s !! t) as [[p|r k|os r k|o]|]; try done.
    pose proof (run_sync_world p (env s)) as Hrun.
    destruct (run_sync p (env s)) as [e st]. cbn in *. by rewrite Hrun.
  - destruct (tasks s !! t) as [[p|r k|os r k|o]|]; try done.
    unfold complete_request. destruct failure; cbn; [done|].
    destruct (find_table (world (env s)) (conn_name (os_conn os)) (os_name os))
      as [tb|] eqn:Htb; cbn; [|done].
    pose proof (sorted_exec r tb (sorted_world_find _ _ _ _ Hw Htb)) as Hs.
    destruct (exec_request r tb) as [tb' res]. cbn in *.
    by apply sorted_world_write.
Qed.

Lemma run_sorted_world (s : Sys) sched :
  sorted_world (world (env s)) →
  sorted_world (world (env (run invoke s sched))).
Proof.
  revert s. induction sched as [|a sched IH]; intros s Hw; [done|].
  rewrite run_cons. by apply IH, step_sorted_world.
Qed.

(** In a machine whose calls are quiet and whose open requests are all
    settled, the list of open requests never changes. *)
Lemma run_quiet_settled (s : Sys) sched :
  (∀ m, quiet (invoke m)) →
  Forall quiet_state (tasks s) →
  Forall (fun req => or_status req ≠ Pending) (opens (env s)) →
  opens (env (run invoke s sched)) = opens (env s).
Proof.
  intros Hinv. revert s. induction sched as [|a sched IH]; intros s Hs Ho; [done|].
  rewrite run_cons. destruct (step_quiet invoke s a Hinv Hs) as (_ & _ & Hst).
  assert (opens (env (step invoke s a)) = opens (env s)) as Hstep.
  { destruct a as [m|promise failure|t|t failure]; cbn [step].
    - pose proof (run_sync_quiet (invoke m) (env s) (Hinv m)) as (Hn & _).
      by destruct (run_sync (invoke m) (env s)).
    - destruct (opens (env s) !! promise) as [req|] eqn:Hreq; [|done].
      eapply Forall_lookup_1 in Ho; [|done]. by destruct (or_status req).
    - destruct (tasks s !! t) as [[p|r k|os r k|o]|] eqn:Ht; try done.
      pose proof (Forall_lookup_1 _ _ _ _ Hs Ht) as Hp.
      pose proof (run_sync_quiet p (env s) Hp) as (Hn & _).
      by destruct (run_sync p (env s)).
    - destruct (tasks s !! t) as [[p|r k|os r k|o]|] eqn:Ht; try done.
      unfold complete_request. destruct failure as [err|]; [done|].
      destruct (find_table (world (env s)) (conn_name (os_conn os))
                  (os_name os)) as [tb|]; [|done].
      by destruct (exec_request r tb). }
  rewrite IH; [done|done|by rewrite Hstep].
Qed.

End Invariants.

(** ** More on single calls of the lazy handle *)

Section LazyMore.
Import Lazy.
Implicit Types (s : Sys (H := IDBKV)) (e : Env (H := IDBKV))
  (hs : list (option error)).

Lemma lazy_once_read_table {A} mode r (f : reqresult → A) e hs :
  mutating r = false →
  current_table (once mode r f e hs).1.1.1 = current_table e.
Proof.
  intros Hr.
  destruct (once mode r f e hs) as [[[e' hs'] [x|err]] n] eqn:Honce; cbn [fst].
  - destruct (lazy_once_fulfilled _ _ _ _ _ _ _ _ _ Honce) as (t & -> & -> & _).
    by rewrite exec_request_read.
  - by destruct (lazy_once_rejected _ _ _ _ _ _ _ _ _ Honce) as [_ ->].
Qed.

Lemma lazy_once_missing {A} mode r (f : reqresult → A) e hs :
  current_table e = None →
  mjoin (head hs) = None →
  once mode r f e hs =
  match instance (this e) with
  | Some _ => (e, hs, Rejected (DOMException "NotFoundError"), 1%nat)
  | None => (connect e, tail hs, Rejected (DOMException "NotFoundError"), 3%nat)
  end.
Proof.
  intros Ht Hhs. unfold once, through.
  destruct (instance (this e)) as [c|] eqn:Hi.
  - unfold current_table in Ht. rewrite Hi in Ht. by rewrite Ht.
  - by rewrite Hhs, (lazy_connect_table _ Hi), Ht.
Qed.

Lemma lazy_once_trace {A} mode r (f : reqresult → A) e t :
  current_table e = Some t →
  trace (once mode r f e []).1.1.1 =
  (trace e ++
   match instance (this e) with
   | Some c =>
       [EvTransaction (conn_name c) (store (this e)) mode;
        EvRequest (conn_name c) (store (this e)) r]
   | None =>
       [EvOpen (db (this e)) 1;
        EvTransaction (db (this e)) (store (this e)) mode;
        EvRequest (db (this e)) (store (this e)) r]
   end)%list.
Proof.
  intros Ht. unfold once, through.
  destruct (instance (this e)) as [c|] eqn:Hi.
  - unfold current_table in Ht. rewrite Hi in Ht. rewrite Ht. cbn.
    by rewrite <- !app_assoc.
  - cbn [head tail mjoin option_join]. rewrite (lazy_connect_table _ Hi), Ht.
    cbn. by rewrite <- !app_assoc.
Qed.

Lemma lazy_update_quiet key action e t next :
  current_table e = Some t →
  action (default Undefined (lookup_record key t)) = inl next →
  ∃ e' n, update_once key action e [] = (e', [], Fulfilled RetVoid, n) ∧
          current_table e' = Some (put_record next key t).
Proof.
  intros Ht Hact. unfold update_once.
  destruct (lazy_once_quiet readonly (ReqGet key) as_value e t Ht)
    as (e1 & n & Hg).
  rewrite Hg. cbn [exec_request snd as_value]. rewrite Hact.
  destruct (lazy_once_fulfilled _ _ _ _ _ _ _ _ _ Hg) as (t0 & Ht0 & Ht1 & _).
  assert (t0 = t) as -> by congruence. cbn [exec_request fst] in Ht1.
  destruct (lazy_once_quiet readwrite (ReqPut next key) (fun _ => RetVoid)
              e1 t Ht1) as (e2 & m & Hs).
  rewrite Hs. exists e2, (n + m + 3)%nat. split; [done|].
  destruct (lazy_once_fulfilled _ _ _ _ _ _ _ _ _ Hs) as (t2 & Ht2 & Ht3 & _).
  assert (t2 = t) as -> by congruence. done.
Qed.

Lemma lazy_sequential_rejected m e hs e' hs' err n :
  sequential m e hs = (e', hs', Rejected err, n) →
  current_table e' = current_table e.
Proof.
  unfold sequential. destruct (plan m) as [[[mode r] f]|] eqn:Hplan.
  { intros Honce.
    by destruct (lazy_once_rejected _ _ _ _ _ _ _ _ _ Honce) as [_ ->]. }
  destruct (lazy_plan_update m Hplan) as (key & action & ->).
  unfold update_once.
  pose proof (lazy_once_read_table readonly (ReqGet key) as_value e hs eq_refl)
    as Hg.
  destruct (once readonly (ReqGet key) as_value e hs)
    as [[[e1 hs1] [value|err1]] n1]; cbn [fst] in Hg.
  - destruct (action value) as [next|err2].
    + destruct (once readwrite (ReqPut next key) (λ _ : reqresult, RetVoid)
                  e1 hs1) as [[[e2 hs2] [x|err3]] n2] eqn:Hs; [done|].
      intros [= <- <- <- <-].
      destruct (lazy_once_rejected _ _ _ _ _ _ _ _ _ Hs) as [_ ->]. done.
    + by intros [= <- <- <- <-].
  - by intros [= <- <- <- <-].
Qed.

(** What a [get] driven on its own resolves to depends on the table the
    handle reaches, and on nothing else. *)
Lemma lazy_get_by_table s s' key :
  current_table (env s) = current_table (env s') →
  (settle s (MGet key) []).2 = (settle s' (MGet key) []).2.
Proof.
  intros Ht.
  destruct (lazy_settle_once s (MGet key) _ _ _ [] eq_refl) as [_ ->].
  destruct (lazy_settle_once s' (MGet key) _ _ _ [] eq_refl) as [_ ->].
  destruct (current_table (env s)) as [t|] eqn:Hs.
  - destruct (lazy_once_quiet readonly (ReqGet key)
                (fun r => RetValue (as_value r)) _ _ Hs) as (e1 & n1 & ->).
    symmetry in Ht.
    by destruct (lazy_once_quiet readonly (ReqGet key)
                   (fun r => RetValue (as_value r)) _ _ Ht) as (e2 & n2 & ->).
  - symmetry in Ht.
    rewrite (lazy_once_missing _ _ _ _ [] Hs eq_refl),
      (lazy_once_missing _ _ _ _ [] Ht eq_refl).
    by destruct (instance (this (env s))), (instance (this (env s'))).
Qed.

End LazyMore.

(** ** Properties of the lazy handle *)

Section LazyExtras.
Import Lazy.
Implicit Types (s : Sys (H := IDBKV)) (e : Env (H := IDBKV))
  (hs : list (option error)).

(** X1. After [clear()] has succeeded the table is empty: [keys()] and
    [values()] resolve to empty arrays, and for every key [get] resolves
    to [undefined] and [has] to [false]. *)
Theorem lazy_clear_empties s hs s' key :
  settle s MClear hs = (s', Some (Fulfilled RetVoid)) →
  current_table (env s') = Some [] ∧
  (settle s' MKeys []).2 = Some (Fulfilled (RetKeys [])) ∧
  (settle s' MValues []).2 = Some (Fulfilled (RetValues [])) ∧
  (settle s' (MGet key) []).2 = Some (Fulfilled (RetValue Undefined)) ∧
  (settle s' (MHas key) []).2 = Some (Fulfilled (RetBool false)).
Proof.
  intros Hclear.
  destruct (lazy_settle_fulfilled s MClear _ _ _ hs s' _ eq_refl Hclear)
    as (t & _ & Ht' & _).
  cbn [exec_request fst] in Ht'. split_and!; [done|..].
  - exact (lazy_settle_quiet s' MKeys _ _ _ _ eq_refl Ht').
  - exact (lazy_settle_quiet s' MValues _ _ _ _ eq_refl Ht').
  - exact (lazy_settle_quiet s' (MGet key) _ _ _ _ eq_refl Ht').
  - exact (lazy_settle_quiet s' (MHas key) _ _ _ _ eq_refl Ht').
Qed.

Lemma lazy_clear_empties_witness :
  settle sample_a MClear [] =
    ((settle sample_a MClear []).1, Some (Fulfilled RetVoid)) ∧
  (settle (settle sample_a MClear []).1 MKeys []).2 =
    Some (Fulfilled (RetKeys [])) ∧
  (settle (settle sample_a MClear []).1 (MGet (KStr "a")) []).2 =
    Some (Fulfilled (RetValue Undefined)).
Proof.
  assert (settle sample_a MClear [] =
            ((settle sample_a MClear []).1, Some (Fulfilled RetVoid))) as Hc
    by (by vm_compute).
  destruct (lazy_clear_empties sample_a [] _ (KStr "a") Hc)
    as (_ & Hk & _ & Hg & _).
  split_and!; done.
Defined.

(** X2. Two successful [set] on a key leave the table that the second
    alone would have made: the first value is gone without trace, and
    setting the same value twice changes nothing the second time. *)
Theorem lazy_set_twice s key v1 v2 hs1 hs2 s1 s2 :
  settle s (MSet key v1) hs1 = (s1, Some (Fulfilled RetVoid)) →
  settle s1 (MSet key v2) hs2 = (s2, Some (Fulfilled RetVoid)) →
  ∃ t, current_table (env s) = Some t ∧
       current_table (env s1) = Some (put_record v1 key t) ∧
       current_table (env s2) = Some (put_record v2 key t).
Proof.
  intros H1 H2.
  destruct (lazy_settle_fulfilled s (MSet key v1) _ _ _ hs1 s1 _ eq_refl H1)
    as (t & Ht & Ht1 & _).
  destruct (lazy_settle_fulfilled s1 (MSet key v2) _ _ _ hs2 s2 _ eq_refl H2)
    as (t1 & Ht1' & Ht2 & _).
  cbn [exec_request fst] in Ht1, Ht2.
  assert (t1 = put_record v1 key t) as -> by congruence.
  rewrite put_put_same in Ht2. eauto.
Qed.

Lemma lazy_set_twice_witness :
  settle sample (MSet (KStr "a") (Num 1)) [] =
    (sample_a, Some (Fulfilled RetVoid)) ∧
  settle sample_a (MSet (KStr "a") (Num 2)) [] =
    (sample_a2, Some (Fulfilled RetVoid)) ∧
  current_table (env sample_a2) = Some [(KStr "a", Num 2)].
Proof.
  assert (settle sample (MSet (KStr "a") (Num 1)) [] =
            (sample_a, Some (Fulfilled RetVoid))) as H1 by (by vm_compute).
  assert (settle sample_a (MSet (KStr "a") (Num 2)) [] =
            (sample_a2, Some (Fulfilled RetVoid))) as H2 by (by vm_compute).
  destruct (lazy_set_twice sample (KStr "a") (Num 1) (Num 2) [] []
              sample_a sample_a2 H1 H2) as (t & Ht & _ & Ht2).
  split_and!; [done..|]. rewrite Ht2. f_equal.
  assert (t = []) as -> by (vm_compute in Ht; congruence). done.
Defined.

(** X3. [get], [has], [keys] and [values] only read: whether they
    resolve or are rejected, the table is afterwards what it was and the
    host was asked for no write. *)
Theorem lazy_reads_leave_table s m mode r f hs :
  plan m = Some (mode, r, f) →
  mutating r = false →
  current_table (env (settle s m hs).1) = current_table (env s) ∧
  puts (trace (env (settle s m hs).1)) = puts (trace (env s)).
Proof.
  intros Hplan Hr. destruct (lazy_settle_once s m _ _ _ hs Hplan) as [-> _].
  split; [by apply lazy_once_read_table|by apply lazy_once_read_puts].
Qed.

Lemma lazy_reads_leave_table_witness :
  plan (MGet (KStr "a")) =
    Some (readonly, ReqGet (KStr "a"), fun r => RetValue (as_value r)) ∧
  mutating (ReqGet (KStr "a")) = false ∧
  current_table (env (settle sample_a (MGet (KStr "a")) []).1) =
    current_table (env sample_a).
Proof.
  destruct (lazy_reads_leave_table sample_a (MGet (KStr "a")) _ _ _ []
              eq_refl eq_refl) as [Ht _].
  split_and!; [reflexivity|reflexivity|exact Ht].
Defined.

(** X4. A rejected call, of any method, leaves the table as it was, and
    the handle is not poisoned: a [get] after it resolves to what it
    would have resolved to before. *)
Theorem lazy_rejected_leaves_table s m hs err key :
  (settle s m hs).2 = Some (Rejected err) →
  current_table (env (settle s m hs).1) = current_table (env s) ∧
  (settle (settle s m hs).1 (MGet key) []).2 = (settle s (MGet key) []).2.
Proof.
  intros Hrej. destruct (lazy_settle_sequential s m hs) as [He Ho].
  rewrite Hrej in Ho.
  destruct (sequential m (env s) hs) as [[[e' hs'] o] n] eqn:Hseq.
  cbn [fst snd] in He, Ho. injection Ho as <-.
  assert (current_table (env (settle s m hs).1) = current_table (env s)) as Ht.
  { rewrite He. by eapply lazy_sequential_rejected. }
  split; [done|]. by apply lazy_get_by_table.
Qed.

Lemma lazy_rejected_leaves_table_witness :
  (settle sample_a (MSet (KStr "a") (Num 2))
     [Some (DOMException "QuotaExceededError")]).2 =
    Some (Rejected (DOMException "QuotaExceededError")) ∧
  (settle (settle sample_a (MSet (KStr "a") (Num 2))
             [Some (DOMException "QuotaExceededError")]).1
     (MGet (KStr "a")) []).2 = (settle sample_a (MGet (KStr "a")) []).2.
Proof.
  assert ((settle sample_a (MSet (KStr "a") (Num 2))
             [Some (DOMException "QuotaExceededError")]).2 =
            Some (Rejected (DOMException "QuotaExceededError"))) as Hr
    by (by vm_compute).
  destruct (lazy_rejected_leaves_table sample_a _ _ _ (KStr "a") Hr) as [_ Hg].
  split; [exact Hr|exact Hg].
Defined.

(** X5. The store is made only when the database is: on a host whose
    database exists without the store of the handle, every call of a new
    handle is rejected with [NotFoundError], and the databases of the host
    are left as they were, still without the store. *)
Theorem lazy_missing_store w name st d m :
  w !! name = Some d →
  d !! default "kv" st = None →
  (settle (init w name st) m []).2 =
    Some (Rejected (DOMException "NotFoundError")) ∧
  world (env (settle (init w name st) m []).1) = w.
Proof.
  intros Hd Hst. set (s := init w name st).
  assert (current_table (env s) = None) as Ht.
  { unfold current_table, upgrade, find_table.
    cbn [s init env this world instance db store run_sync constructor blank
         fst set_this].
    rewrite Hd, Hd. cbn [mbind option_bind]. exact Hst. }
  assert (world (connect (env s)) = w) as Hw.
  { unfold connect, upgrade.
    cbn [s init env this world instance db store run_sync constructor blank
         fst set_this set_world set_opens issue_open log].
    by rewrite Hd. }
  destruct (lazy_settle_sequential s m []) as [-> ->].
  unfold sequential. destruct (plan m) as [[[mode r] f]|] eqn:Hplan.
  - by rewrite (lazy_once_missing _ _ _ _ [] Ht eq_refl).
  - destruct (lazy_plan_update m Hplan) as (key & action & ->).
    unfold update_once. by rewrite (lazy_once_missing _ _ _ _ [] Ht eq_refl).
Qed.

Lemma lazy_missing_store_witness :
  foreign !! "db" = Some {["other" := []]} ∧
  ({["other" := []]} : gmap string table) !! default "kv" None = None ∧
  (settle stranger (MSet (KStr "a") (Num 1)) []).2 =
    Some (Rejected (DOMException "NotFoundError")) ∧
  world (env (settle stranger (MSet (KStr "a") (Num 1)) []).1) = foreign.
Proof.
  assert (foreign !! "db" = Some {["other" := []]}) as Hd by (by vm_compute).
  assert (({["other" := []]} : gmap string table) !! default "kv" None = None)
    as Hst by (by vm_compute).
  destruct (lazy_missing_store foreign "db" None _ (MSet (KStr "a") (Num 1))
              Hd Hst) as [Ho Hw].
  split_and!; [exact Hd|exact Hst|exact Ho|exact Hw].
Defined.

(** X6. What a handle has written is there for a handle constructed
    later on the same names: after a successful [set] through a new
    handle, [get] through another new handle on the databases the first
    one left resolves to the value written. *)
Theorem lazy_new_handle_reads w name st key val hs s' :
  settle (init w name st) (MSet key val) hs = (s', Some (Fulfilled RetVoid)) →
  (settle (init (world (env s')) name st) (MGet key) []).2 =
    Some (Fulfilled (RetValue val)).
Proof.
  intros Hset. set (s := init w name st) in *.
  destruct (lazy_settle_fulfilled s (MSet key val) _ _ _ hs s' _ eq_refl Hset)
    as (t & _ & Ht' & _).
  cbn [exec_request fst] in Ht'.
  destruct (lazy_settle_sequential s (MSet key val) hs) as [He Ho].
  rewrite Hset in He, Ho. cbn [fst snd] in He, Ho.
  pose proof (lazy_sequential_instance (MSet key val) (env s) hs) as Hi.
  rewrite <- He in Hi. cbn [sequential plan] in Ho.
  assert (mjoin (head hs) = None) as Hhs.
  { destruct (mjoin (head hs)) as [err|] eqn:Hhs; [|done].
    by rewrite (lazy_once_refused readwrite (ReqPut val key) (fun _ => RetVoid)
                  (env s) hs err eq_refl Hhs) in Ho. }
  rewrite Hhs in Hi. cbn in Hi.
  assert (this (env s') = with_instance (connection (env s)) (this (env s)))
    as Hthis.
  { rewrite He. cbn [sequential plan]. unfold once, through.
    cbn [instance this env s init run_sync constructor blank fst set_this].
    rewrite Hhs.
    by repeat match goal with
              | |- context [match ?x with _ => _ end] => destruct x
              end. }
  assert (find_table (world (env s')) name (default "kv" st) =
          Some (put_record val key t)) as Hfind.
  { unfold current_table in Ht'. by rewrite Hthis in Ht'. }
  assert (current_table (env (init (world (env s')) name st)) =
          Some (put_record val key t)) as Hnew.
  { unfold current_table, upgrade.
    cbn [init env this world instance db store run_sync constructor blank
         fst set_this].
    unfold find_table in Hfind.
    destruct (world (env s') !! name) as [d|] eqn:Hd; [|done].
    unfold find_table. by rewrite Hd. }
  pose proof (lazy_settle_quiet _ (MGet key) _ _ _ _ eq_refl Hnew) as Hg.
  cbn [exec_request snd as_value] in Hg. by rewrite lookup_put_same in Hg.
Qed.

Lemma lazy_new_handle_reads_witness :
  settle (init ∅ "db" None) (MSet (KStr "a") (Num 1)) [] =
    (sample_a, Some (Fulfilled RetVoid)) ∧
  (settle (init (world (env sample_a)) "db" None) (MGet (KStr "a")) []).2 =
    Some (Fulfilled (RetValue (Num 1))).
Proof.
  assert (settle (init ∅ "db" None) (MSet (KStr "a") (Num 1)) [] =
            (sample_a, Some (Fulfilled RetVoid))) as H1 by (by vm_compute).
  split; [exact H1|].
  exact (lazy_new_handle_reads ∅ "db" None (KStr "a") (Num 1) [] sample_a H1).
Defined.
End LazyExtras.

Section LazyExtras2.
Import Lazy.
Implicit Types (s : Sys (H := IDBKV)) (e : Env (H := IDBKV))
  (hs : list (option error)).

(** X7. [update(key, action)] with a host that signals no failure: when
    [action] returns [next] for the value stored under [key] (for
    [undefined] if there is no record), [update] resolves, the table is
    the one [set(key, next)] makes, and [get(key)] then resolves to
    [next]. *)
Theorem lazy_update_applies s key action t next :
  current_table (env s) = Some t →
  action (default Undefined (lookup_record key t)) = inl next →
  (settle s (MUpdate key action) []).2 = Some (Fulfilled RetVoid) ∧
  current_table (env (settle s (MUpdate key action) []).1) =
    Some (put_record next key t) ∧
  (settle (settle s (MUpdate key action) []).1 (MGet key) []).2 =
    Some (Fulfilled (RetValue next)).
Proof.
  intros Ht Hact. destruct (lazy_settle_update s key action []) as [He Ho].
  destruct (lazy_update_quiet key action (env s) t next Ht Hact)
    as (e' & n & Hu & Ht').
  rewrite Hu in He, Ho. cbn [fst snd] in He, Ho. rewrite <- He in Ht'.
  split_and!; [done..|].
  pose proof (lazy_settle_quiet _ (MGet key) _ _ _ _ eq_refl Ht') as Hg.
  cbn [exec_request snd as_value] in Hg. by rewrite lookup_put_same in Hg.
Qed.

Lemma lazy_update_applies_witness :
  current_table (env sample_a) = Some [(KStr "a", Num 1)] ∧
  (settle (settle sample_a
             (MUpdate (KStr "a")
                (fun v => match v with
                          | Num n => inl (Num (n + 1))
                          | _ => inr (Thrown v)
                          end)) []).1 (MGet (KStr "a")) []).2 =
    Some (Fulfilled (RetValue (Num 2))).
Proof.
  assert (current_table (env sample_a) = Some [(KStr "a", Num 1)]) as Ht
    by (by vm_compute).
  destruct (lazy_update_applies sample_a (KStr "a")
              (fun v => match v with
                        | Num n => inl (Num (n + 1))
                        | _ => inr (Thrown v)
                        end) _ (Num 2) Ht eq_refl) as (_ & _ & Hg).
  split; [exact Ht|exact Hg].
Defined.

(** X8. [update] is not atomic.  Two [update] of one key started one
    after the other, the host serving both reads before either write:
    both resolve, and the table holds what the second makes of the value
    both have read.  The update of the first is lost. *)
Theorem lazy_update_lost v0 f1 f2 :
  let s := run (counter v0) (racing_updates f1 f2) in
  current_table (env (counter v0)) = Some [(KStr "n", v0)] ∧
  current_table (env s) = Some [(KStr "n", f2 v0)] ∧
  match tasks s with
  | [_; Settled o1; Settled o2] =>
      o1 = Fulfilled RetVoid ∧ o2 = Fulfilled RetVoid
  | _ => False
  end.
Proof. by vm_compute. Qed.

(** X9. What a call asks of the host.  With the connection cached and a
    host that signals no failure, a call of a method other than [update]
    opens one transaction on the store of the handle, in the mode of the
    method, and places one request; a first call does the same after its
    one open request, version 1, for the database of the handle. *)
Theorem lazy_call_io s m mode r f t :
  plan m = Some (mode, r, f) →
  current_table (env s) = Some t →
  trace (env (settle s m []).1) =
  (trace (env s) ++
   match instance (this (env s)) with
   | Some c =>
       [EvTransaction (conn_name c) (store (this (env s))) mode;
        EvRequest (conn_name c) (store (this (env s))) r]
   | None =>
       [EvOpen (db (this (env s))) 1;
        EvTransaction (db (this (env s))) (store (this (env s))) mode;
        EvRequest (db (this (env s))) (store (this (env s))) r]
   end)%list.
Proof.
  intros Hplan Ht. destruct (lazy_settle_once s m _ _ _ [] Hplan) as [-> _].
  by apply (lazy_once_trace _ _ _ _ t).
Qed.

Lemma lazy_call_io_witness :
  plan (MSet (KStr "a") (Num 1)) =
    Some (readwrite, ReqPut (Num 1) (KStr "a"), fun _ => RetVoid) ∧
  current_table (env sample) = Some [] ∧
  trace (env (settle sample (MSet (KStr "a") (Num 1)) []).1) =
    [EvOpen "db" 1; EvTransaction "db" "kv" readwrite;
     EvRequest "db" "kv" (ReqPut (Num 1) (KStr "a"))].
Proof.
  assert (current_table (env sample) = Some []) as Ht by (by vm_compute).
  pose proof (lazy_call_io sample (MSet (KStr "a") (Num 1)) _ _ _ []
                eq_refl Ht) as Hio.
  split_and!; [reflexivity|exact Ht|exact Hio].
Defined.

(** X10. The connection is opened once and kept: a call on a handle that
    has a connection cached issues no open request, whatever the method
    and whatever the host does, and leaves that connection cached. *)
Theorem lazy_connection_reused s m hs c :
  instance (this (env s)) = Some c →
  open_count (settle s m hs).1 = open_count s ∧
  instance (this (env (settle s m hs).1)) = Some c.
Proof.
  intros Hi. destruct (lazy_settle_sequential s m hs) as [He _].
  unfold open_count. rewrite He. split.
  - by rewrite lazy_sequential_opens, Hi.
  - by rewrite lazy_sequential_instance, Hi.
Qed.

Lemma lazy_connection_reused_witness :
  instance (this (env sample_a)) = Some {| conn_name := "db" |} ∧
  open_count (settle sample_a (MGet (KStr "a")) []).1 = open_count sample_a ∧
  instance (this (env (settle sample_a (MGet (KStr "a")) []).1)) =
    Some {| conn_name := "db" |}.
Proof.
  assert (instance (this (env sample_a)) = Some {| conn_name := "db" |}) as Hi
    by (by vm_compute).
  destruct (lazy_connection_reused sample_a (MGet (KStr "a")) [] _ Hi)
    as [Hn Hc].
  split_and!; [exact Hi|exact Hn|exact Hc].
Defined.

Lemma lazy_calls_open_each_witness :
  instance (this (env sample)) = None ∧
  open_count (run sample (Call <$> [MGet (KStr "a"); MSet (KStr "b") (Num 1);
                                    MKeys])) = 3%nat.
Proof.
  destruct (lazy_calls_open_each sample
              [MGet (KStr "a"); MSet (KStr "b") (Num 1); MKeys] eq_refl)
    as [Hn _].
  split; [reflexivity|exact Hn].
Defined.

End LazyExtras2.

(** ** The order of [keys] and [values] *)

Section LazyOrder.
Import Lazy.
Implicit Types (s : Sys (H := IDBKV)).

(** Numbers sort by value and before strings; strings sort by code unit,
    so that a character outside the basic plane, which is a surrogate
    pair, sorts before the characters from U+E000 on. *)
Lemma key_order_samples :
  key_lt (KNum (-1)) (KNum 0) ∧
  key_lt (KNum 7) (KStr "") ∧
  key_lt (KStr "a") (KStr "ab") ∧
  key_lt (KStr "ab") (KStr "b") ∧
  key_lt (KStr "z") (KStr "é") ∧
  KStr "～" = KUnits [0xFF5E%N] ∧
  KStr "😀" = KUnits [0xD83D%N; 0xDE00%N] ∧
  key_lt (KStr "😀") (KStr "～").
Proof. by vm_compute. Qed.

(** The table a handle works on is in key order in every state of the
    machine. *)
Lemma lazy_current_table_sorted w name st sched t :
  sorted_world w →
  current_table (env (run (init w name st) sched)) = Some t →
  sorted_table t.
Proof.
  intros Hw Ht.
  pose proof (run_sorted_world invoke (init w name st) sched Hw) as Hs.
  fold (run (init w name st) sched) in Hs.
  unfold current_table in Ht.
  destruct (instance (this (env (run (init w name st) sched)))).
  - by eapply sorted_world_find.
  - eapply sorted_world_find; [|done]. by apply sorted_world_upgrade.
Qed.

(** C9. In every state [s] the machine reaches from a new handle,
    whatever was called and in whatever order the records were written,
    [keys()] resolves to the keys that have a record, each once, in
    strictly ascending key order (numbers by value, then strings by code
    unit), and [values()] resolves to as many values in the same order:
    the value at position [i] is the record of the key at position [i],
    which is what [get] of that key resolves to; [has] resolves to [true]
    exactly for the keys listed.  Neither method can resolve to anything
    else, whatever the host requests do. *)
Theorem lazy_keys_values w name st sched s t :
  sorted_world w →
  s = run (init w name st) sched →
  current_table (env s) = Some t →
  (settle s MKeys []).2 = Some (Fulfilled (RetKeys (all_keys t))) ∧
  (settle s MValues []).2 = Some (Fulfilled (RetValues (all_values t))) ∧
  StronglySorted key_lt (all_keys t) ∧
  (∀ k, k ∈ all_keys t ↔ is_Some (lookup_record k t)) ∧
  (∀ k, (settle s (MHas k) []).2 =
        Some (Fulfilled (RetBool (bool_decide (k ∈ all_keys t))))) ∧
  length (all_values t) = length (all_keys t) ∧
  (∀ i k, all_keys t !! i = Some k →
          all_values t !! i = lookup_record k t) ∧
  (∀ i k, all_keys t !! i = Some k →
          ∃ v, all_values t !! i = Some v ∧
               (settle s (MGet k) []).2 = Some (Fulfilled (RetValue v))) ∧
  (∀ hs x, (settle s MKeys hs).2 = Some (Fulfilled x) →
           x = RetKeys (all_keys t)) ∧
  (∀ hs x, (settle s MValues hs).2 = Some (Fulfilled x) →
           x = RetValues (all_values t)).
Proof.
  intros Hw Hs Ht.
  assert (sorted_table t) as Hsorted.
  { rewrite Hs in Ht. by eapply lazy_current_table_sorted. }
  split_and!.
  - exact (lazy_settle_quiet s MKeys _ _ _ _ eq_refl Ht).
  - exact (lazy_settle_quiet s MValues _ _ _ _ eq_refl Ht).
  - exact Hsorted.
  - intros k. apply elem_of_keys_lookup.
  - intros k.
    rewrite (bool_decide_ext _ _ (elem_of_keys_lookup k t)), <- has_result.
    exact (lazy_settle_quiet s (MHas k) _ _ _ _ eq_refl Ht).
  - symmetry. apply keys_values_length.
  - intros i k Hi. by apply values_aligned.
  - intros i k Hi.
    pose proof (values_aligned t i k Hsorted Hi) as Hv.
    assert (k ∈ all_keys t) as [v Hk]%elem_of_keys_lookup
      by (by eapply list_elem_of_lookup_2).
    exists v. split; [by rewrite Hv|].
    pose proof (lazy_settle_quiet s (MGet k) _ _ _ _ eq_refl Ht) as Hg.
    unfold exec_request in Hg. rewrite Hk in Hg. exact Hg.
  - intros hs x Hx.
    exact (lazy_settle_value s MKeys _ _ _ _ hs x eq_refl Ht Hx).
  - intros hs x Hx.
    exact (lazy_settle_value s MValues _ _ _ _ hs x eq_refl Ht Hx).
Qed.

Lemma lazy_keys_values_witness :
  sorted_world ∅ ∧
  sample_wide = run (init ∅ "db" None) wide_writes ∧
  current_table (env sample_wide) =
    Some [(KStr "😀", Num 2); (KStr "～", Num 1)] ∧
  (settle sample_wide MKeys []).2 =
    Some (Fulfilled (RetKeys [KStr "😀"; KStr "～"])) ∧
  (settle sample_wide MValues []).2 =
    Some (Fulfilled (RetValues [Num 2; Num 1])) ∧
  StronglySorted key_lt [KStr "😀"; KStr "～"].
Proof.
  assert (sorted_world ∅) as Hw.
  { intros name d st t Hd. by rewrite lookup_empty in Hd. }
  assert (current_table (env sample_wide) =
            Some [(KStr "😀", Num 2); (KStr "～", Num 1)]) as Ht
    by (by vm_compute).
  assert (sample_wide = run (init ∅ "db" None) wide_writes) as He
    by reflexivity.
  pose proof (lazy_keys_values ∅ "db" None wide_writes sample_wide _ Hw He Ht)
    as (Hk & Hv & Hsorted & _).
  split_and!.
  - exact Hw.
  - exact He.
  - exact Ht.
  - exact Hk.
  - exact Hv.
  - exact Hsorted.
Defined.

End LazyOrder.


Section EagerExtras.
Import Eager.
Implicit Types (s : Sys (H := IDBKV)) (e : Env (H := IDBKV))
  (hs : list (option error)).

(** X13. The eager handle opens in its constructor, and only there: the
    constructor issues one open request for the database, version 1, and
    whatever is called afterwards and however the schedule goes, that
    request stays the only one. *)
Theorem eager_opens_once w name st sched :
  trace (env (init w name st)) = [EvOpen name 1] ∧
  open_count (init w name st) = 1%nat ∧
  open_count (run (init w name st) sched) = 1%nat ∧
  promise (this (env (run (init w name st) sched))) = Some 0%nat.
Proof.
  destruct (run_quiet invoke (init w name st) sched eager_invoke_quiet)
    as (Hn & Hthis & _); [by constructor|].
  unfold run. rewrite Hn, Hthis. done.
Qed.

(** X15. On the eager handle a failed open is final: once the open
    request of the constructor has failed, every call, whenever it is
    made, is rejected with the error of that request, and no other open
    request is issued. *)
Theorem eager_failed_open_final w name st err sched m hs :
  let s := run (init w name st) (OpenDone 0 (Some err) :: sched) in
  (settle s m hs).2 = Some (Rejected err) ∧
  open_count (settle s m hs).1 = 1%nat.
Proof.
  intros s. subst s. unfold run. rewrite run_cons.
  rewrite (step_open_done invoke (init w name st) 0
             {| or_name := name; or_version := 1;
                or_store := default "kv" st; or_status := Pending |});
    [|done|done].
  set (s0 := complete_open 0 _ (Some err) (init w name st)).
  assert (Forall quiet_state (tasks s0)) as Hq by constructor.
  assert (opens (env s0) =
          [{| or_name := name; or_version := 1; or_store := default "kv" st;
              or_status := Failed err |}]) as Ho0 by done.
  assert (this (env s0) =
          {| db := name; store := default "kv" st; promise := Some 0%nat |})
    as Ht0 by done.
  destruct (run_quiet invoke s0 sched eager_invoke_quiet Hq) as (_ & Hthis & _).
  pose proof (run_quiet_settled invoke s0 sched eager_invoke_quiet Hq) as Hopens.
  rewrite Ho0 in Hopens. rewrite Ht0 in Hthis.
  fold (run s0 sched) in Hthis, Hopens |- *.
  set (s1 := run s0 sched) in *.
  assert (opens (env s1) =
          [{| or_name := name; or_version := 1; or_store := default "kv" st;
              or_status := Failed err |}]) as Ho1.
  { apply Hopens. constructor; [done|constructor]. }
  assert (exec (invoke m) (env s1) hs = Some (env s1, hs, Rejected err, 0%nat))
    as Hexec.
  { destruct m; cbn [invoke]; unfold get, set, delete, clear, keys, values,
      access, await, fmap, prog_fmap, mbind, prog_bind; cbn [bind exec];
      rewrite Hthis; cbn [promise bind exec]; by rewrite Ho1. }
  destruct (settle_exec invoke s1 m hs _ _ _ _ Hexec) as [He Hout]; [lia|].
  unfold settle. split; [done|]. unfold open_count. by rewrite He, Ho1.
Qed.
End EagerExtras.

(** ** Single calls of the eager handle *)

Section EagerOnce.
Import Eager.
Implicit Types (s : Sys (H := IDBKV)) (e : Env (H := IDBKV))
  (hs : list (option error)).

Lemma eager_exec_invoke m mode r f e hs p req :
  plan m = Some (mode, r, f) →
  promise (this e) = Some p →
  opens e !! p = Some req →
  exec (invoke m) e hs = Some (once p req mode r f e hs).
Proof.
  intros Hplan Hp Hreq.
  destruct m; cbn [plan] in Hplan; injection Hplan as <- <- <-;
    cbn [invoke]; unfold get, set, delete, clear, keys, values, access, await,
      fmap, prog_fmap, mbind, prog_bind; cbn [bind exec];
    rewrite Hp; cbn [bind exec]; rewrite Hreq; unfold once, through, opened,
      failed, requested, committed;
    (destruct (or_status req) as [|c|err]; [destruct (mjoin (head hs))| |];
     try done);
    cbn [exec bind world this set_world set_opens log conn_name os_mode os_conn
         os_name mutating];
    repeat match goal with
           | |- context [find_table ?w ?n ?st] =>
               destruct (find_table w n st); cbn [later fmap option_fmap
                 option_map fst snd]; try done
           | |- context [mjoin (head ?l)] =>
               destruct (mjoin (head l)); cbn [later fmap option_fmap
                 option_map fst snd]; try done
           end.
Qed.

Lemma eager_once_steps {A} p req mode r (f : reqresult → A) e hs :
  ((once p req mode r f e hs).2 ≤ 5)%nat.
Proof.
  unfold once, through.
  repeat match goal with
         | |- context [match ?x with _ => _ end] => destruct x
         end; cbn; lia.
Qed.

Lemma eager_settle_once s m mode r f hs p req :
  plan m = Some (mode, r, f) →
  promise (this (env s)) = Some p →
  opens (env s) !! p = Some req →
  env (settle s m hs).1 = (once p req mode r f (env s) hs).1.1.1 ∧
  (settle s m hs).2 = Some (once p req mode r f (env s) hs).1.2.
Proof.
  intros Hplan Hp Hreq.
  pose proof (eager_once_steps p req mode r f (env s) hs) as Hn.
  pose proof (eager_exec_invoke m _ _ _ (env s) hs p req Hplan Hp Hreq) as Hexec.
  destruct (once p req mode r f (env s) hs) as [[[e' hs'] o] n].
  apply (settle_exec invoke s m hs e' hs' o n Hexec). cbn in Hn. lia.
Qed.

Lemma eager_once_fulfilled {A} p req mode r (f : reqresult → A)
    e hs e' hs' x n :
  promise (this e) = Some p →
  opens e !! p = Some req →
  once p req mode r f e hs = (e', hs', Fulfilled x, n) →
  ∃ t, current_table e = Some t ∧
       current_table e' = Some (exec_request r t).1 ∧
       x = f (exec_request r t).2 ∧
       promise (this e') = Some p ∧
       is_Some (opens e' !! p).
Proof.
  intros Hp Hreq. unfold once, through, current_table.
  rewrite Hp. cbn [mbind option_bind]. rewrite Hreq. cbn [mbind option_bind].
  destruct (or_status req) as [|c|err] eqn:Hst; [| |done].
  - destruct (mjoin (head hs)); [done|].
    cbn [opened world this set_world set_opens conn_name].
    destruct (find_table (upgrade (world e) (or_name req) (or_store req))
                (or_name req) (store (this e))) as [t|] eqn:Ht; [|done].
    destruct (mjoin (head (tail hs))); [done|].
    intros [= <- <- <- <-]. exists t. split_and!; [done| |done|done|].
    + cbn [committed requested opened this world opens set_world set_opens
           log conn_name]. rewrite Hp. cbn [mbind option_bind].
      rewrite list_lookup_insert_eq by (by eapply lookup_lt_Some).
      cbn [mbind option_bind settle_open or_status conn_name].
      by eapply find_write_table.
    + cbn [committed requested opened this world opens set_world set_opens log].
      rewrite list_lookup_insert_eq by (by eapply lookup_lt_Some). eauto.
  - destruct (find_table (world e) (conn_name c) (store (this e)))
      as [t|] eqn:Ht; [|done].
    destruct (mjoin (head hs)); [done|].
    intros [= <- <- <- <-]. exists t. split_and!; [done| |done|done|].
    + cbn [committed requested this world opens set_world log]. rewrite Hp.
      cbn [mbind option_bind]. rewrite Hreq. cbn [mbind option_bind].
      rewrite Hst. by eapply find_write_table.
    + cbn [committed requested this world opens set_world log]. eauto.
Qed.

Lemma eager_once_quiet {A} p req mode r (f : reqresult → A) e t :
  promise (this e) = Some p →
  opens e !! p = Some req →
  current_table e = Some t →
  ∃ e' n, once p req mode r f e [] = (e', [], Fulfilled (f (exec_request r t).2), n).
Proof.
  intros Hp Hreq. unfold once, through, current_table.
  rewrite Hp. cbn [mbind option_bind]. rewrite Hreq. cbn [mbind option_bind].
  destruct (or_status req) as [|c|err] eqn:Hst; [| |done].
  - cbn [head tail mjoin option_join opened world this set_world set_opens
         conn_name]. intros ->. cbn. eauto.
  - intros ->. cbn. eauto.
Qed.

(** In every state of the machine the promise of the handle is the open
    request of the constructor. *)
Lemma eager_promise_kept w name st sched :
  promise (this (env (run (init w name st) sched))) = Some 0%nat ∧
  is_Some (opens (env (run (init w name st) sched)) !! 0%nat).
Proof.
  destruct (run_quiet invoke (init w name st) sched eager_invoke_quiet)
    as (Hn & Hthis & _); [by constructor|].
  unfold run. rewrite Hthis. split; [done|].
  apply lookup_lt_is_Some. unfold open_count in Hn. rewrite Hn. cbn. lia.
Qed.

(** X16. The eager handle, after any calls and any schedule: once
    [set(key, val)] has succeeded, [get(key)] resolves to [val], and can
    resolve to nothing else. *)
Theorem eager_get_after_set w name st sched key val hs s' :
  settle (run (init w name st) sched) (MSet key val) hs =
    (s', Some (Fulfilled RetVoid)) →
  (settle s' (MGet key) []).2 = Some (Fulfilled (RetValue val)) ∧
  ∀ hs' x, (settle s' (MGet key) hs').2 = Some (Fulfilled x) →
           x = RetValue val.
Proof.
  intros Hset. set (s := run (init w name st) sched) in *.
  destruct (eager_promise_kept w name st sched) as [Hp [req Hreq]].
  fold s in Hp, Hreq.
  destruct (eager_settle_once s (MSet key val) _ _ _ hs 0 req eq_refl Hp Hreq)
    as [He Ho].
  rewrite Hset in He, Ho. cbn [fst snd] in He, Ho.
  destruct (once 0 req readwrite (ReqPut val key) (λ _ : reqresult, RetVoid)
              (env s) hs) as [[[e1 hs1] o1] n1] eqn:Honce.
  cbn [fst snd] in He, Ho. injection Ho as <-. subst e1.
  destruct (eager_once_fulfilled _ _ _ _ _ _ _ _ _ _ _ Hp Hreq Honce)
    as (t & _ & Ht' & _ & Hp' & [req' Hreq']).
  cbn [exec_request fst] in Ht'. split.
  - destruct (eager_settle_once s' (MGet key) _ _ _ [] 0 req' eq_refl Hp' Hreq')
      as [_ ->].
    destruct (eager_once_quiet 0 req' readonly (ReqGet key)
                (fun r => RetValue (as_value r)) _ _ Hp' Hreq' Ht')
      as (e2 & n2 & ->).
    cbn [fst snd exec_request as_value]. by rewrite lookup_put_same.
  - intros hs' x Hx.
    destruct (eager_settle_once s' (MGet key) _ _ _ hs' 0 req' eq_refl Hp' Hreq')
      as [_ Ho'].
    rewrite Hx in Ho'.
    destruct (once 0 req' readonly (ReqGet key)
                (λ r : reqresult, RetValue (as_value r)) (env s') hs')
      as [[[e2 hs2] o2] n2] eqn:Honce'.
    cbn [fst snd] in Ho'. injection Ho' as <-.
    destruct (eager_once_fulfilled _ _ _ _ _ _ _ _ _ _ _ Hp' Hreq' Honce')
      as (t2 & Ht2 & _ & -> & _).
    assert (t2 = put_record val key t) as -> by congruence.
    cbn [exec_request snd as_value]. by rewrite lookup_put_same.
Qed.

Lemma eager_get_after_set_witness :
  settle (run (init ∅ "db" None) []) (MSet (KStr "a") (Num 1)) [] =
    ((settle (run (init ∅ "db" None) []) (MSet (KStr "a") (Num 1)) []).1,
     Some (Fulfilled RetVoid)) ∧
  (settle (settle (run (init ∅ "db" None) []) (MSet (KStr "a") (Num 1)) []).1
     (MGet (KStr "a")) []).2 = Some (Fulfilled (RetValue (Num 1))).
Proof.
  assert (settle (run (init ∅ "db" None) []) (MSet (KStr "a") (Num 1)) [] =
    ((settle (run (init ∅ "db" None) []) (MSet (KStr "a") (Num 1)) []).1,
     Some (Fulfilled RetVoid))) as H1 by (by vm_compute).
  destruct (eager_get_after_set ∅ "db" None [] (KStr "a") (Num 1) [] _ H1)
    as [Hg _].
  split; [exact H1|exact Hg].
Defined.
End EagerOnce.

Lemma find_upgrade_fresh (w : databases) name st :
  w !! name = None → find_table (upgrade w name st) name st = Some [].
Proof.
  intros Hw. unfold upgrade, find_table. rewrite Hw, lookup_insert_eq.
  cbn. by rewrite lookup_singleton_eq.
Qed.

Lemma write_upgrade_fresh (w : databases) name st t :
  w !! name = None →
  write_table (upgrade w name st) name st t = <[name := {[st := t]}]> w.
Proof.
  intros Hw. unfold upgrade, write_table. rewrite Hw, lookup_insert_eq.
  by rewrite insert_insert_eq, insert_singleton_eq.
Qed.

Section LazyExtras3.
Import Lazy.
Implicit Types (s : Sys (H := IDBKV)) (e : Env (H := IDBKV))
  (hs : list (option error)).

(** X17. The first use makes the database.  On a host that has no
    database of that name, the first call of a new handle, served without
    failure, leaves the host with that database holding one store, named
    as the constructor was told and "kv" by default, with the table the
    request makes of the empty one. *)
Theorem lazy_first_use_creates w name st m mode r f :
  plan m = Some (mode, r, f) →
  w !! name = None →
  world (env (settle (init w name st) m []).1) =
    <[name := {[default "kv" st := (exec_request r []).1]}]> w ∧
  (settle (init w name st) m []).2 = Some (Fulfilled (f (exec_request r []).2)).
Proof.
  intros Hplan Hw. set (s := init w name st).
  destruct (lazy_settle_once s m _ _ _ [] Hplan) as [-> ->].
  assert (current_table (env s) = Some []) as Ht.
  { unfold current_table.
    cbn [s init env this world instance db store run_sync constructor blank
         fst set_this].
    by apply find_upgrade_fresh. }
  unfold once, through.
  change (instance (this (env s))) with (@None IDBDatabase).
  cbn [head tail mjoin option_join].
  rewrite (lazy_connect_table (env s) eq_refl), Ht.
  cbn [fst snd]. split; [|done].
  unfold committed, requested.
  cbn [world this store set_world log connect connection conn_name set_this
       with_instance set_opens issue_open s init env run_sync constructor
       blank fst db].
  by apply write_upgrade_fresh.
Qed.

Lemma lazy_first_use_creates_witness :
  plan (MSet (KStr "a") (Num 1)) =
    Some (readwrite, ReqPut (Num 1) (KStr "a"), fun _ => RetVoid) ∧
  (∅ : databases) !! "db" = None ∧
  world (env (settle (init ∅ "db" None) (MSet (KStr "a") (Num 1)) []).1) =
    <["db" := {["kv" := [(KStr "a", Num 1)]]}]> ∅.
Proof.
  assert ((∅ : databases) !! "db" = None) as Hn by (by vm_compute).
  destruct (lazy_first_use_creates ∅ "db" None (MSet (KStr "a") (Num 1))
              _ _ _ eq_refl Hn) as [Hw _].
  split_and!; [reflexivity|exact Hn|exact Hw].
Defined.

(** X18. [has] and [keys] agree: on any table, [has(key)] resolves to
    [true] exactly when [key] is among the keys [keys()] resolves to,
    whatever value is stored under it. *)
Theorem lazy_has_iff_in_keys s t key :
  current_table (env s) = Some t →
  (settle s MKeys []).2 = Some (Fulfilled (RetKeys (all_keys t))) ∧
  (settle s (MHas key) []).2 =
    Some (Fulfilled (RetBool (bool_decide (key ∈ all_keys t)))).
Proof.
  intros Ht. split.
  - exact (lazy_settle_quiet s MKeys _ _ _ _ eq_refl Ht).
  - rewrite (bool_decide_ext _ _ (elem_of_keys_lookup key t)), <- has_result.
    exact (lazy_settle_quiet s (MHas key) _ _ _ _ eq_refl Ht).
Qed.

Lemma lazy_has_iff_in_keys_witness :
  current_table (env sample_undefined) = Some [(KStr "a", Undefined)] ∧
  (settle sample_undefined MKeys []).2 =
    Some (Fulfilled (RetKeys [KStr "a"])) ∧
  (settle sample_undefined (MHas (KStr "a")) []).2 =
    Some (Fulfilled (RetBool true)).
Proof.
  assert (current_table (env sample_undefined) = Some [(KStr "a", Undefined)])
    as Ht by (by vm_compute).
  destruct (lazy_has_iff_in_keys sample_undefined _ (KStr "a") Ht) as [Hk Hh].
  split_and!; [exact Ht|exact Hk|exact Hh].
Defined.

(** X19. Writes touch one key: after a successful [set] or [delete] of
    another key, [get(key)] and [has(key)] resolve to what they resolved
    to before. *)
Theorem lazy_other_keys_untouched s m key' key hs s' :
  (∃ val, m = MSet key' val) ∨ m = MDelete key' →
  key' ≠ key →
  settle s m hs = (s', Some (Fulfilled RetVoid)) →
  (settle s' (MGet key) []).2 = (settle s (MGet key) []).2 ∧
  (settle s' (MHas key) []).2 = (settle s (MHas key) []).2.
Proof.
  intros Hm Hne Hs.
  assert (∃ t t', current_table (env s) = Some t ∧
                  current_table (env s') = Some t' ∧
                  lookup_record key t' = lookup_record key t)
    as (t & t' & Ht & Ht' & Hk).
  { destruct Hm as [[val ->]| ->].
    - destruct (lazy_settle_fulfilled s (MSet key' val) _ _ _ hs s' _
                  eq_refl Hs) as (t & Ht & Ht' & _).
      exists t, (put_record val key' t). split_and!; [done..|].
      by apply lookup_put_other.
    - destruct (lazy_settle_fulfilled s (MDelete key') _ _ _ hs s' _
                  eq_refl Hs) as (t & Ht & Ht' & _).
      exists t, (delete_record key' t). split_and!; [done..|].
      by apply lookup_delete_other. }
  split.
  - rewrite (lazy_settle_quiet s' (MGet key) _ _ _ _ eq_refl Ht'),
      (lazy_settle_quiet s (MGet key) _ _ _ _ eq_refl Ht).
    cbn [exec_request snd]. by rewrite Hk.
  - rewrite (lazy_settle_quiet s' (MHas key) _ _ _ _ eq_refl Ht'),
      (lazy_settle_quiet s (MHas key) _ _ _ _ eq_refl Ht).
    cbn beta. by rewrite !has_result, Hk.
Qed.

Lemma lazy_other_keys_untouched_witness :
  ((∃ val, MDelete (KStr "b") = MSet (KStr "b") val) ∨
   MDelete (KStr "b") = MDelete (KStr "b")) ∧
  KStr "b" ≠ KStr "a" ∧
  settle sample_ba (MDelete (KStr "b")) [] =
    ((settle sample_ba (MDelete (KStr "b")) []).1, Some (Fulfilled RetVoid)) ∧
  (settle (settle sample_ba (MDelete (KStr "b")) []).1 (MGet (KStr "a")) []).2 =
    (settle sample_ba (MGet (KStr "a")) []).2.
Proof.
  assert (settle sample_ba (MDelete (KStr "b")) [] =
    ((settle sample_ba (MDelete (KStr "b")) []).1, Some (Fulfilled RetVoid)))
    as Hd by (by vm_compute).
  assert (KStr "b" ≠ KStr "a") as Hne by done.
  destruct (lazy_other_keys_untouched sample_ba (MDelete (KStr "b"))
              (KStr "b") (KStr "a") [] _ (or_intror eq_refl) Hne Hd) as [Hg _].
  split_and!; [by right|exact Hne|exact Hd|exact Hg].
Defined.
End LazyExtras3.
